(** * A shallow embedding of tetris.py and its specification.

    The engine of the game (board, collision test, merge, line clearing,
    spawning, locking, scoring and the key dispatch of the main loop) is
    translated function by function.  Python integers are [Z], lists are
    [list], an [IndexError] is an explicit outcome, and the one unbounded
    loop ([hard_drop]) runs on fuel. *)

From Stdlib Require Import ZArith Lia List Bool.
From stdpp Require Import base numbers list.
Import ListNotations.
Local Open Scope Z_scope.

(** ** Python primitives *)

Module Py.

(** Outcome of a computation that may raise [IndexError], the only
    exception the engine code can raise. *)
Inductive result (A : Type) : Type :=
| Ok (a : A)
| IndexError.
Arguments Ok {A} a.
Arguments IndexError {A}.

Definition bind {A B : Type} (m : result A) (k : A -> result B) : result B :=
  match m with
  | Ok a => k a
  | IndexError => IndexError
  end.

(** [len(l)] *)
Definition len {A : Type} (l : list A) : Z := Z.of_nat (length l).

(** [l[i]]: negative indices count from the end, anything outside
    [-len(l) .. len(l)-1] raises. *)
Definition getitem {A : Type} (l : list A) (i : Z) : result A :=
  let j := if i <? 0 then i + len l else i in
  if j <? 0 then IndexError
  else match l !! Z.to_nat j with
       | Some a => Ok a
       | None => IndexError
       end.

(** [l[i] = v] *)
Definition setitem {A : Type} (l : list A) (i : Z) (v : A) : result (list A) :=
  let j := if i <? 0 then i + len l else i in
  if (j <? 0) || (len l <=? j) then IndexError
  else Ok (<[Z.to_nat j := v]> l).

(** Truth value of an integer: [if cell:] *)
Definition truthy (c : Z) : bool := negb (c =? 0).

(** [range(a, b)] *)
Definition range (a b : Z) : list Z := seqZ a (b - a).

(** [zip] applied to the unpacked rows: the columns of [rows], cut at the
    shortest row. *)
Fixpoint zip_star {A : Type} (rows : list (list A)) : list (list A) :=
  match rows with
  | [] => []
  | r :: rows' =>
      match rows' with
      | [] => map (fun a => [a]) r
      | _ :: _ => zip_with cons r (zip_star rows')
      end
  end.

End Py.

Import Py.

#[global] Instance result_bind : MBind result :=
  fun A B k m => Py.bind m k.
#[global] Instance result_ret : MRet result := @Ok.

(** ** Configuration *)

Definition COLS : Z := 10.
Definition VISIBLE_ROWS : Z := 20.
Definition HIDDEN_ROWS : Z := 4.
Definition TOTAL_ROWS : Z := VISIBLE_ROWS + HIDDEN_ROWS.

(** ** Piece catalog *)

(** The keys of the [SHAPES] dictionary. *)
Inductive piece : Type :=
| key_I | key_J | key_L | key_O | key_S | key_T | key_Z.

Definition SHAPES (k : piece) : list (list Z) :=
  match k with
  | key_I => [[0;0;0;0];
              [1;1;1;1];
              [0;0;0;0];
              [0;0;0;0]]
  | key_J => [[2;0;0];
              [2;2;2];
              [0;0;0]]
  | key_L => [[0;0;3];
              [3;3;3];
              [0;0;0]]
  | key_O => [[4;4];
              [4;4]]
  | key_S => [[0;5;5];
              [5;5;0];
              [0;0;0]]
  | key_T => [[0;6;0];
              [6;6;6];
              [0;0;0]]
  | key_Z => [[7;7;0];
              [0;7;7];
              [0;0;0]]
  end.

(** [list(SHAPES.keys())], what [random.choice] draws from. *)
Definition all_pieces : list piece :=
  [key_I; key_J; key_L; key_O; key_S; key_T; key_Z].

(** ** Utilities *)

(** [rotate]: reverse the rows, then take the columns. *)
Definition rotate (shape : list (list Z)) : list (list Z) :=
  zip_star (rev shape).

Definition new_board : list (list Z) :=
  replicate (Z.to_nat TOTAL_ROWS) (replicate (Z.to_nat COLS) 0).

(** Body of the inner loop of [collide] for one cell; [Ok true] stands for
    [return True], [Ok false] for falling through to the next cell. *)
Definition collide_cell (board : list (list Z)) (off_x off_y x y cell : Z)
  : result bool :=
  if truthy cell then
    let bx := off_x + x in
    let by_ := off_y + y in
    if (bx <? 0) || (bx >=? COLS) then Ok true
    else if by_ >=? TOTAL_ROWS then Ok true
    else if by_ >=? 0 then
      brow ← getitem board by_;
      c ← getitem brow bx;
      Ok (truthy c)
    else Ok false
  else Ok false.

Fixpoint collide_row (board : list (list Z)) (off_x off_y x y : Z)
  (row : list Z) : result bool :=
  match row with
  | [] => Ok false
  | cell :: row' =>
      hit ← collide_cell board off_x off_y x y cell;
      if hit : bool then Ok true
      else collide_row board off_x off_y (x + 1) y row'
  end.

Fixpoint collide_rows (board : list (list Z)) (off_x off_y y : Z)
  (shape : list (list Z)) : result bool :=
  match shape with
  | [] => Ok false
  | row :: shape' =>
      hit ← collide_row board off_x off_y 0 y row;
      if hit : bool then Ok true
      else collide_rows board off_x off_y (y + 1) shape'
  end.

Definition collide (board shape : list (list Z)) (offset : Z * Z)
  : result bool :=
  let '(off_x, off_y) := offset in
  collide_rows board off_x off_y 0 shape.

(** Body of the inner loop of [merge].  [board[by][bx] = cell] reads the
    row object and writes into it; the rows of a board are distinct
    objects ([new_board] and [clear_lines] build each row afresh), so the
    write is the replacement of that one row. *)
Definition merge_cell (board : list (list Z)) (off_x off_y x y cell : Z)
  : result (list (list Z)) :=
  if truthy cell then
    let by_ := off_y + y in
    let bx := off_x + x in
    if (0 <=? by_) && (by_ <? TOTAL_ROWS) && (0 <=? bx) && (bx <? COLS) then
      brow ← getitem board by_;
      brow' ← setitem brow bx cell;
      setitem board by_ brow'
    else Ok board
  else Ok board.

Fixpoint merge_row (board : list (list Z)) (off_x off_y x y : Z)
  (row : list Z) : result (list (list Z)) :=
  match row with
  | [] => Ok board
  | cell :: row' =>
      board' ← merge_cell board off_x off_y x y cell;
      merge_row board' off_x off_y (x + 1) y row'
  end.

Fixpoint merge_rows (board : list (list Z)) (off_x off_y y : Z)
  (shape : list (list Z)) : result (list (list Z)) :=
  match shape with
  | [] => Ok board
  | row :: shape' =>
      board' ← merge_row board off_x off_y 0 y row;
      merge_rows board' off_x off_y (y + 1) shape'
  end.

Definition merge (shape board : list (list Z)) (offset : Z * Z)
  : result (list (list Z)) :=
  let '(off_x, off_y) := offset in
  merge_rows board off_x off_y 0 shape.

(** [any(cell == 0 for cell in row)] *)
Definition has_empty (row : list Z) : bool :=
  existsb (fun cell => cell =? 0) row.

(** [clear_lines]: [range(cleared)] is empty for a negative [cleared]. *)
Definition clear_lines (board : list (list Z)) : list (list Z) * Z :=
  let new_rows := List.filter has_empty board in
  let cleared := TOTAL_ROWS - len new_rows in
  (Nat.iter (Z.to_nat cleared)
     (fun rows => replicate (Z.to_nat COLS) 0 :: rows) new_rows,
   cleared).

(** ** The engine: class [Tetris] *)

Module Tetris.

(** The attributes of a [Tetris] object.  [surface] only serves drawing
    and is left out; [saved] is the trace of the calls of [save_stats], in
    order, each with its two arguments. *)
Record state : Type := {
  board : list (list Z);
  score : Z;
  level : Z;
  lines : Z;
  high_level : Z;
  high_lines : Z;
  game_over : bool;
  paused : bool;
  next_type : piece;
  current_type : piece;
  current_shape : list (list Z);
  x : Z;
  y : Z;
  saved : list (Z * Z)
}.

Section Assign.
Variable g : state.

Definition set_board v := Build_state v (score g) (level g) (lines g)
  (high_level g) (high_lines g) (game_over g) (paused g) (next_type g)
  (current_type g) (current_shape g) (x g) (y g) (saved g).
Definition set_score v := Build_state (board g) v (level g) (lines g)
  (high_level g) (high_lines g) (game_over g) (paused g) (next_type g)
  (current_type g) (current_shape g) (x g) (y g) (saved g).
Definition set_level v := Build_state (board g) (score g) v (lines g)
  (high_level g) (high_lines g) (game_over g) (paused g) (next_type g)
  (current_type g) (current_shape g) (x g) (y g) (saved g).
Definition set_lines v := Build_state (board g) (score g) (level g) v
  (high_level g) (high_lines g) (game_over g) (paused g) (next_type g)
  (current_type g) (current_shape g) (x g) (y g) (saved g).
Definition set_high_level v := Build_state (board g) (score g) (level g)
  (lines g) v (high_lines g) (game_over g) (paused g) (next_type g)
  (current_type g) (current_shape g) (x g) (y g) (saved g).
Definition set_high_lines v := Build_state (board g) (score g) (level g)
  (lines g) (high_level g) v (game_over g) (paused g) (next_type g)
  (current_type g) (current_shape g) (x g) (y g) (saved g).
Definition set_game_over v := Build_state (board g) (score g) (level g)
  (lines g) (high_level g) (high_lines g) v (paused g) (next_type g)
  (current_type g) (current_shape g) (x g) (y g) (saved g).
Definition set_paused v := Build_state (board g) (score g) (level g)
  (lines g) (high_level g) (high_lines g) (game_over g) v (next_type g)
  (current_type g) (current_shape g) (x g) (y g) (saved g).
Definition set_next_type v := Build_state (board g) (score g) (level g)
  (lines g) (high_level g) (high_lines g) (game_over g) (paused g) v
  (current_type g) (current_shape g) (x g) (y g) (saved g).
Definition set_current_type v := Build_state (board g) (score g) (level g)
  (lines g) (high_level g) (high_lines g) (game_over g) (paused g)
  (next_type g) v (current_shape g) (x g) (y g) (saved g).
Definition set_current_shape v := Build_state (board g) (score g)
  (level g) (lines g) (high_level g) (high_lines g) (game_over g)
  (paused g) (next_type g) (current_type g) v (x g) (y g) (saved g).
Definition set_x v := Build_state (board g) (score g) (level g) (lines g)
  (high_level g) (high_lines g) (game_over g) (paused g) (next_type g)
  (current_type g) (current_shape g) v (y g) (saved g).
Definition set_y v := Build_state (board g) (score g) (level g) (lines g)
  (high_level g) (high_lines g) (game_over g) (paused g) (next_type g)
  (current_type g) (current_shape g) (x g) v (saved g).

(** [save_stats(self.high_level, self.high_lines)]: the write goes to
    the file system; the engine state keeps no more than the trace. *)
Definition save_stats := Build_state (board g) (score g) (level g)
  (lines g) (high_level g) (high_lines g) (game_over g) (paused g)
  (next_type g) (current_type g) (current_shape g) (x g) (y g)
  (saved g ++ [(high_level g, high_lines g)]).
End Assign.

(** [find_spawn_x_order]: [//] is floor division, which is [Z.div] for
    the positive divisor 2. *)
Definition find_spawn_x_order (shape_width : Z) : list Z :=
  let center := (COLS - shape_width) `div` 2 in
  let order :=
    fold_left
      (fun order i =>
         let left := center - i in
         let right := center + i in
         let order := if left >=? 0 then order ++ [left] else order in
         if (right <=? COLS - shape_width) && negb (right =? left)
         then order ++ [right] else order)
      (range 1 COLS) [center] in
  List.filter (fun c => (0 <=? c) && (c <=? COLS - shape_width)) order.

(** The [for spawn_x in spawn_x_candidates] loop of [spawn_new]:
    [Some spawn_x] when the loop returns at [spawn_x], [None] when it
    runs to its end. *)
Fixpoint spawn_search (brd shape : list (list Z)) (spawn_y : Z)
  (candidates : list Z) : result (option Z) :=
  match candidates with
  | [] => Ok None
  | spawn_x :: rest =>
      c ← collide brd shape (spawn_x, spawn_y);
      if negb c then Ok (Some spawn_x)
      else spawn_search brd shape spawn_y rest
  end.

(** The tail of [spawn_new] after the loop found no column. *)
Definition spawn_failed (g : state) : state :=
  let g := set_game_over g true in
  let changed := false in
  let '(g, changed) :=
    if level g >? high_level g
    then (set_high_level g (level g), true) else (g, changed) in
  let '(g, changed) :=
    if lines g >? high_lines g
    then (set_high_lines g (lines g), true) else (g, changed) in
  if changed then save_stats g else g.

(** [spawn_new]; [r] is the value [random.choice] returns. *)
Definition spawn_new (r : piece) (g : state) : result state :=
  let g := set_current_type g (next_type g) in
  let g := set_current_shape g (SHAPES (current_type g)) in
  let g := set_next_type g r in
  let shape_h := len (current_shape g) in
  row0 ← getitem (current_shape g) 0;
  let shape_w := len row0 in
  let spawn_y := HIDDEN_ROWS - shape_h in
  let spawn_y := if spawn_y <? 0 then 0 else spawn_y in
  let spawn_x_candidates := find_spawn_x_order shape_w in
  found ← spawn_search (board g) (current_shape g) spawn_y
            spawn_x_candidates;
  match found with
  | Some spawn_x => Ok (set_y (set_x g spawn_x) spawn_y)
  | None => Ok (spawn_failed g)
  end.

(** [__init__] up to its call of [spawn_new]: [hl] and [hn] are what
    [load_stats] returns, [r1] the first random draw.  The attributes
    [current_type], [current_shape], [x] and [y] do not exist yet; the
    values given to them here are never read, and [spawn_new] on the
    empty board assigns all four. *)
Definition blank (hl hn : Z) (r1 : piece) : state :=
  {| board := new_board; score := 0; level := 1; lines := 0;
     high_level := hl; high_lines := hn;
     game_over := false; paused := false;
     next_type := r1;
     current_type := r1; current_shape := []; x := 0; y := 0;
     saved := [] |}.

(** [__init__]; [r2] is the random draw of its [spawn_new]. *)
Definition init (hl hn : Z) (r1 r2 : piece) : result state :=
  spawn_new r2 (blank hl hn r1).

Definition rotate_piece (g : state) : result state :=
  let new_shape := rotate (current_shape g) in
  c ← collide (board g) new_shape (x g, y g);
  if negb c then Ok (set_current_shape g new_shape) else Ok g.

Definition move (dx : Z) (g : state) : result state :=
  c ← collide (board g) (current_shape g) (x g + dx, y g);
  if negb c then Ok (set_x g (x g + dx)) else Ok g.

(** The [if cleared:] block of [lock_piece]. *)
Definition lock_scoring (cleared : Z) (g : state) : state :=
  if truthy cleared then
    let g := set_lines g (lines g + cleared) in
    let g := set_score g (score g + (100 * cleared) * level g) in
    let g := set_level g (1 + lines g `div` 10) in
    let changed := false in
    let '(g, changed) :=
      if lines g >? high_lines g
      then (set_high_lines g (lines g), true) else (g, changed) in
    let '(g, changed) :=
      if level g >? high_level g
      then (set_high_level g (level g), true) else (g, changed) in
    if changed then save_stats g else g
  else g.

Definition lock_piece (r : piece) (g : state) : result state :=
  b ← merge (current_shape g) (board g) (x g, y g);
  let '(new_rows, cleared) := clear_lines b in
  let g := set_board g new_rows in
  let g := lock_scoring cleared g in
  spawn_new r g.

(** [soft_drop]: the state and the returned flag. *)
Definition soft_drop (r : piece) (g : state) : result (state * bool) :=
  c ← collide (board g) (current_shape g) (x g, y g + 1);
  if negb c then Ok (set_y g (y g + 1), true)
  else g' ← lock_piece r g; Ok (g', false).

(** The [while] loop of [hard_drop], on fuel: [None] when the fuel runs
    out before the loop ends. *)
Fixpoint hard_drop_loop (fuel : nat) (g : state) : option (result state) :=
  match fuel with
  | O => None
  | S fuel' =>
      match collide (board g) (current_shape g) (x g, y g + 1) with
      | IndexError => Some IndexError
      | Ok c =>
          if negb c then hard_drop_loop fuel' (set_y g (y g + 1))
          else Some (Ok g)
      end
  end.

Definition hard_drop (fuel : nat) (r : piece) (g : state)
  : option (result state) :=
  match hard_drop_loop fuel g with
  | None => None
  | Some res => Some (g' ← res; lock_piece r g')
  end.

Definition update (r : piece) (g : state) : result state :=
  if game_over g || paused g then Ok g
  else gb ← soft_drop r g; Ok (fst gb).

End Tetris.

(** ** The event loop of [main] *)

(** The events [main] dispatches on.  [QUIT] and [K_ESCAPE] only end the
    loop and [K_d] only prints; [K_other] is any key without a branch. *)
Inductive event : Type :=
| FALL_EVENT
| K_d | K_s | K_r | K_p
| K_LEFT | K_RIGHT | K_UP | K_DOWN | K_SPACE
| K_other.

(** One pass of the body of [for event in pygame.event.get()] on the
    engine state; [r] is the random draw a spawn in this pass consumes. *)
Definition handle_event (fuel : nat) (ev : event) (r : piece)
  (g : Tetris.state) : option (result Tetris.state) :=
  match ev with
  | FALL_EVENT =>
      if negb (Tetris.paused g) && negb (Tetris.game_over g)
      then Some (Tetris.update r g) else Some (Ok g)
  | K_d => Some (Ok g)
  | K_s => Some (Ok (Tetris.save_stats g))
  | K_r =>
      let g := Tetris.set_board g new_board in
      let g := Tetris.set_score g 0 in
      let g := Tetris.set_level g 1 in
      let g := Tetris.set_lines g 0 in
      let g := Tetris.set_game_over g false in
      Some (Tetris.spawn_new r g)
  | K_p => Some (Ok (Tetris.set_paused g (negb (Tetris.paused g))))
  | _ =>
      if negb (Tetris.game_over g) && negb (Tetris.paused g) then
        match ev with
        | K_LEFT => Some (Tetris.move (-1) g)
        | K_RIGHT => Some (Tetris.move 1 g)
        | K_UP => Some (Tetris.rotate_piece g)
        | K_DOWN => Some (gb ← Tetris.soft_drop r g; Ok (fst gb))
        | K_SPACE => Tetris.hard_drop fuel r g
        | _ => Some (Ok g)
        end
      else Some (Ok g)
  end.

(** The event loop: the events of a run, each with the random draw its
    spawn would consume, handled in order. *)
Fixpoint run (fuel : nat) (events : list (event * piece)) (g : Tetris.state)
  : option (result Tetris.state) :=
  match events with
  | [] => Some (Ok g)
  | (ev, r) :: events' =>
      match handle_event fuel ev r g with
      | Some (Ok g') => run fuel events' g'
      | stop => stop
      end
  end.

(** A game from its construction on: [__init__], then the events. *)
Definition play (fuel : nat) (hl hn : Z) (r1 r2 : piece)
  (events : list (event * piece)) : option (result Tetris.state) :=
  match Tetris.init hl hn r1 r2 with
  | Ok g => run fuel events g
  | IndexError => Some IndexError
  end.

(** The timer interval [main] sets at start and after each tick, in
    milliseconds: [max(1000 - (game.level - 1) * 60, 100)]. *)
Definition fall_speed (level : Z) : Z := Z.max (1000 - (level - 1) * 60) 100.

(** * Vocabulary of the specification *)

Section Vocabulary.
Import Tetris.

(** ** Reachable states *)

(** The states the game can be in: what [__init__] builds, and what the
    main loop makes of such a state, one event at a time. *)
Inductive reachable : Tetris.state -> Prop :=
| reachable_init (hl hn : Z) (r1 r2 : piece) (g : Tetris.state) :
    Tetris.init hl hn r1 r2 = Ok g -> reachable g
| reachable_step (fuel : nat) (ev : event) (r : piece) (g g' : Tetris.state) :
    reachable g -> handle_event fuel ev r g = Some (Ok g') -> reachable g'.

(** ** Boards and shapes *)

(** A board as [new_board] builds it: [TOTAL_ROWS] rows of [COLS] cells. *)
Definition board_wf (board : list (list Z)) : Prop :=
  len board = TOTAL_ROWS /\ Forall (fun row => len row = COLS) board.

Definition board_wf_b (board : list (list Z)) : bool :=
  (len board =? TOTAL_ROWS) && forallb (fun row => len row =? COLS) board.

(** [board[by][bx]] holds a nonzero value. *)
Definition occupied (board : list (list Z)) (bx by_ : Z) : Prop :=
  exists brow c, getitem board by_ = Ok brow /\ getitem brow bx = Ok c /\ c <> 0.

(** The board coordinate [(bx, by)] is outside the side walls, below the
    floor, or a settled block. *)
Definition blocked (board : list (list Z)) (bx by_ : Z) : Prop :=
  bx < 0 \/ bx >= COLS \/ by_ >= TOTAL_ROWS \/ (by_ >= 0 /\ occupied board bx by_).

(** The cell in row [j], column [i] of a shape matrix. *)
Definition shape_cell (shape : list (list Z)) (i j : nat) (cell : Z) : Prop :=
  exists row, shape !! j = Some row /\ row !! i = Some cell.

(** The shape has a nonzero cell. *)
Definition has_block (shape : list (list Z)) : Prop :=
  exists (i j : nat) (cell : Z), shape_cell shape i j cell /\ cell <> 0.

Definition has_block_b (shape : list (list Z)) : bool :=
  existsb (existsb truthy) shape.

(** The four orientations of a catalog shape. *)
Definition orientations (k : piece) : list (list (list Z)) :=
  [SHAPES k; rotate (SHAPES k); rotate (rotate (SHAPES k));
   rotate (rotate (rotate (SHAPES k)))].

Definition catalog_shape (shape : list (list Z)) : Prop :=
  exists k, In shape (orientations k).

(** ** Spawning *)

(** The spec's probing order, [n] steps out from the centre:
    [center, center-1, center+1, center-2, center+2, ...]. *)
Definition center_out (center : Z) (n : nat) : list Z :=
  center :: flat_map (fun i => [center - i; center + i]) (seqZ 1 (Z.of_nat n)).

(** Columns at which a shape of width [w] stays between the walls. *)
Definition valid_column (w c : Z) : bool := (0 <=? c) && (c <=? COLS - w).

Definition spec_spawn_order (w : Z) (n : nat) : list Z :=
  List.filter (valid_column w) (center_out ((COLS - w) `div` 2) n).

(** Height and width of a shape matrix as [spawn_new] reads them. *)
Definition shape_height (shape : list (list Z)) : Z := len shape.

Definition shape_width (shape : list (list Z)) : Z := len (hd [] shape).

(** The spec's vertical anchor: [HIDDEN_ROWS - h], not below 0. *)
Definition spawn_row (shape : list (list Z)) : Z :=
  Z.max 0 (HIDDEN_ROWS - shape_height shape).

(** The state of [spawn_new] after its first three assignments. *)
Definition spawn_entry (r : piece) (g : state) : state :=
  set_next_type
    (set_current_shape (set_current_type g (next_type g))
       (SHAPES (next_type g))) r.

(** The state the [K_r] branch hands to [spawn_new]. *)
Definition reset_fields (g : state) : state :=
  set_game_over (set_lines (set_level (set_score (set_board g new_board) 0) 1) 0)
    false.

(** ** Counters, status and drops *)

(** The level equation of the spec. *)
Definition level_inv (g : state) : Prop := level g = 1 + lines g `div` 10.

(** The status of the spec, read off the two flags of the engine; the
    main loop tests [game_over] first wherever it tests both. *)
Inductive status : Type := Running | Paused | GameOver.

Definition status_of (g : Tetris.state) : status :=
  if Tetris.game_over g then GameOver
  else if Tetris.paused g then Paused else Running.

(** Fuel that is enough for a hard drop from row [y]. *)
Definition drop_fuel (g : state) : nat := S (Z.to_nat (TOTAL_ROWS - y g)).

(** The spec's reading of a hard drop: [soft_drop] again and again until
    it returns [False], on fuel like the loop of [hard_drop]. *)
Fixpoint soft_drop_until_locked (fuel : nat) (r : piece) (g : state)
  : option (result state) :=
  match fuel with
  | O => None
  | S fuel' =>
      match soft_drop r g with
      | IndexError => Some IndexError
      | Ok (g', true) => soft_drop_until_locked fuel' r g'
      | Ok (g', false) => Some (Ok g')
      end
  end.

(** ** Boards, states and games used as examples *)

(** A board with every cell settled. *)
Definition full_board : list (list Z) :=
  replicate (Z.to_nat TOTAL_ROWS) (replicate (Z.to_nat COLS) 7).

(** A board whose rows 2 and 5 are full and whose other rows hold one
    block each, in a column that tells the rows apart. *)
Definition two_full_rows : list (list Z) :=
  map (fun i : nat =>
         if (i =? 2)%nat || (i =? 5)%nat then replicate 10 7
         else <[(i `mod` 10)%nat := 3]> (replicate 10 0))
      (seq 0 24).

(** A state at level 2 with the vertical [I] in column 0 over three rows
    that miss only that column. *)
Definition three_rows_state : state :=
  {| board := replicate 21 (replicate 10 0) ++ replicate 3 (0 :: replicate 9 7);
     score := 1500; level := 2; lines := 12;
     high_level := 2; high_lines := 12;
     game_over := false; paused := false;
     next_type := key_O; current_type := key_I;
     current_shape := rotate (SHAPES key_I); x := -2; y := 20;
     saved := [] |}.

(** Two [I] pieces side by side and an [O] in the last two columns fill
    the bottom row. *)
Definition one_line_game : list (event * piece) :=
  repeat (K_LEFT, key_I) 3 ++ [(K_SPACE, key_O)]
  ++ [(K_RIGHT, key_I); (K_SPACE, key_T)]
  ++ repeat (K_RIGHT, key_I) 4 ++ [(K_SPACE, key_J)].

(** The same game up to its last hard drop. *)
Definition one_line_setup : list (event * piece) :=
  repeat (K_LEFT, key_I) 3 ++ [(K_SPACE, key_O)]
  ++ [(K_RIGHT, key_I); (K_SPACE, key_T)]
  ++ repeat (K_RIGHT, key_I) 4.

(** Twenty-three [I] pieces dropped down the middle reach the top. *)
Definition lost_game : list (event * piece) := repeat (K_SPACE, key_I) 23.

(** A vertical [I] at the left wall under a flat [I] leaves a hollow; the
    next piece, an [O], is moved over the flat [I]. *)
Definition hollow_game : list (event * piece) :=
  [(K_UP, key_I)] ++ repeat (K_LEFT, key_I) 5 ++ [(K_SPACE, key_O)]
  ++ repeat (K_LEFT, key_I) 3 ++ [(K_SPACE, key_T)]
  ++ repeat (K_LEFT, key_I) 3.

(** ** Steps of the main loop *)

(** Neither flag is set: the timer and the movement keys are accepted. *)
Definition running (g : state) : Prop :=
  game_over g = false /\ paused g = false.

(** What one event can do to the engine state: nothing, a manual save, a
    pause toggle, a reset, an accepted move, rotation or one-row fall, or
    a descent of zero or more rows ended by a lock. *)
Inductive step (r : piece) (g : state) : state -> Prop :=
| step_none : step r g g
| step_save : step r g (save_stats g)
| step_pause : step r g (set_paused g (negb (paused g)))
| step_reset (g' : state) :
    spawn_new r (reset_fields g) = Ok g' -> step r g g'
| step_move (dx : Z) :
    running g ->
    collide (board g) (current_shape g) (x g + dx, y g) = Ok false ->
    step r g (set_x g (x g + dx))
| step_rotate :
    running g ->
    collide (board g) (rotate (current_shape g)) (x g, y g) = Ok false ->
    step r g (set_current_shape g (rotate (current_shape g)))
| step_fall :
    running g ->
    collide (board g) (current_shape g) (x g, y g + 1) = Ok false ->
    step r g (set_y g (y g + 1))
| step_lock (y1 : Z) (g' : state) :
    running g -> y g <= y1 ->
    (forall y', y g < y' <= y1 ->
       collide (board g) (current_shape g) (x g, y') = Ok false) ->
    collide (board g) (current_shape g) (x g, y1 + 1) = Ok true ->
    lock_piece r (set_y g y1) = Ok g' ->
    step r g g'.

(** The anchor row is not negative, and while the game is not over the
    active piece does not collide where it is. *)
Definition placed (g : state) : Prop :=
  0 <= y g /\
  (game_over g = false ->
   collide (board g) (current_shape g) (x g, y g) = Ok false).

(** ** Cells *)

(** Every cell of a matrix satisfies [P]. *)
Definition all_cells (P : Z -> Prop) (m : list (list Z)) : Prop :=
  Forall (Forall P) m.

(** A cell value of the data model: 0 for empty, 1 to 7 for a block. *)
Definition cell_value (c : Z) : Prop := 0 <= c <= 7.

(** The board cell at column [bx] of row [by], if the board has one. *)
Definition board_cell (board : list (list Z)) (bx by_ : Z) : option Z :=
  if (bx <? 0) || (by_ <? 0) then None
  else board !! Z.to_nat by_ ≫= fun row => row !! Z.to_nat bx.

(** The block a row of a shape has at column [i]. *)
Definition row_block (row : list Z) (i : Z) : option Z :=
  if i <? 0 then None
  else match row !! Z.to_nat i with
       | Some c => if truthy c then Some c else None
       | None => None
       end.

(** The block a shape has at column [i] of row [j]: its nonzero cell
    there, if any. *)
Definition shape_block (shape : list (list Z)) (i j : Z) : option Z :=
  match board_cell shape i j with
  | Some c => if truthy c then Some c else None
  | None => None
  end.

(** A settled block in one of the hidden rows. *)
Definition hidden_block (board : list (list Z)) : Prop :=
  exists bx by_ c, 0 <= bx < COLS /\ 0 <= by_ < HIDDEN_ROWS /\
    board_cell board bx by_ = Some c /\ c <> 0.

Definition all_cells_b (f : Z -> bool) (m : list (list Z)) : bool :=
  forallb (forallb f) m.

(** The board invariant: cell values and no full row. *)
Definition board_ok (g : state) : Prop :=
  all_cells cell_value (board g) /\
  Forall (fun row : list Z => 0 ∈ row) (board g).

(** ** High scores *)

(** How an operation may change the high-score record and the trace of
    saves: the two fields never go down, the trace only grows, and either
    fields and trace are untouched or the last save is the record now in
    memory. *)
Definition highs_step (g g' : state) : Prop :=
  high_level g <= high_level g' /\
  high_lines g <= high_lines g' /\
  (exists more, saved g' = saved g ++ more) /\
  ((high_level g' = high_level g /\ high_lines g' = high_lines g /\
    saved g' = saved g)
   \/ last (saved g') = Some (high_level g', high_lines g')).

(** The record in memory is the one loaded, [hl] and [hn], as long as
    nothing was saved, and the last one saved otherwise. *)
Definition highs_in_sync (hl hn : Z) (g : state) : Prop :=
  (saved g = [] /\ high_level g = hl /\ high_lines g = hn)
  \/ last (saved g) = Some (high_level g, high_lines g).

(** A matrix of [h] rows of [w] cells each. *)
Definition rect (h w : nat) (m : list (list Z)) : Prop :=
  length m = h /\ Forall (fun row => length row = w) m.

(** The cell in row [i], column [j] of a matrix, if there is one. *)
Definition matrix_cell (m : list (list Z)) (i j : nat) : option Z :=
  m !! i ≫= fun row => row !! j.

End Vocabulary.

(** * Properties *)

(** [simpl] leaves the calls of the engine's functions folded. *)
Arguments collide : simpl never.
Arguments merge : simpl never.
Arguments clear_lines : simpl never.
Arguments Tetris.find_spawn_x_order : simpl never.
Arguments Tetris.spawn_new : simpl never.
Arguments Tetris.lock_piece : simpl never.
Arguments Tetris.spawn_failed : simpl never.
Arguments Tetris.lock_scoring : simpl never.

(** Reading a field of a state built by assignments. *)
Ltac fields :=
  cbv beta iota zeta delta
    [Tetris.set_board Tetris.set_score Tetris.set_level Tetris.set_lines
     Tetris.set_high_level Tetris.set_high_lines Tetris.set_game_over
     Tetris.set_paused Tetris.set_next_type Tetris.set_current_type
     Tetris.set_current_shape Tetris.set_x Tetris.set_y Tetris.save_stats
     Tetris.board Tetris.score Tetris.level Tetris.lines Tetris.high_level
     Tetris.high_lines Tetris.game_over Tetris.paused Tetris.next_type
     Tetris.current_type Tetris.current_shape Tetris.x Tetris.y Tetris.saved].

Ltac fields_in H :=
  cbv beta iota zeta delta
    [Tetris.set_board Tetris.set_score Tetris.set_level Tetris.set_lines
     Tetris.set_high_level Tetris.set_high_lines Tetris.set_game_over
     Tetris.set_paused Tetris.set_next_type Tetris.set_current_type
     Tetris.set_current_shape Tetris.set_x Tetris.set_y Tetris.save_stats
     Tetris.board Tetris.score Tetris.level Tetris.lines Tetris.high_level
     Tetris.high_lines Tetris.game_over Tetris.paused Tetris.next_type
     Tetris.current_type Tetris.current_shape Tetris.x Tetris.y Tetris.saved]
    in H.

(** ** Results and indexing *)

Lemma bind_Ok {A B : Type} (a : A) (k : A -> result B) :
  (Ok a ≫= k) = k a.
Proof. reflexivity. Qed.

Lemma bind_IndexError {A B : Type} (k : A -> result B) :
  (IndexError ≫= k) = IndexError.
Proof. reflexivity. Qed.

Lemma bind_Ok_inv {A B : Type} (m : result A) (k : A -> result B) (b : B) :
  (m ≫= k) = Ok b -> exists a, m = Ok a /\ k a = Ok b.
Proof. destruct m as [a|]; [exists a; split; [reflexivity|assumption] | discriminate]. Qed.

Lemma getitem_inside {A : Type} (l : list A) (i : Z) :
  0 <= i < len l -> exists a, getitem l i = Ok a /\ l !! Z.to_nat i = Some a.
Proof.
  intros [Hlo Hhi]. unfold getitem, len in *.
  destruct (Z.ltb_spec i 0) as [?|_]; [lia|].
  destruct (Z.ltb_spec i 0) as [?|_]; [lia|].
  destruct (lookup_lt_is_Some_2 l (Z.to_nat i)) as [a Ha]; [lia|].
  exists a. rewrite Ha. split; reflexivity.
Qed.

Lemma setitem_inside {A : Type} (l : list A) (i : Z) (v : A) :
  0 <= i < len l -> setitem l i v = Ok (<[Z.to_nat i := v]> l).
Proof.
  intros [Hlo Hhi]. unfold setitem.
  destruct (Z.ltb_spec i 0) as [?|_]; [lia|].
  destruct (Z.ltb_spec i 0) as [?|_]; [lia|].
  destruct (Z.leb_spec (len l) i) as [?|_]; [lia|]. reflexivity.
Qed.

(** ** Boards *)

Lemma board_wf_b_spec (board : list (list Z)) :
  board_wf_b board = true -> board_wf board.
Proof.
  unfold board_wf_b, board_wf. intros H.
  apply andb_prop in H as [Hlen Hrows]. apply Z.eqb_eq in Hlen.
  split; [assumption|]. apply Forall_forall. intros row Hin.
  apply list_elem_of_In in Hin.
  apply Z.eqb_eq. exact (proj1 (forallb_forall _ _) Hrows row Hin).
Qed.

Lemma new_board_wf : board_wf new_board.
Proof.
  split; [reflexivity|].
  unfold new_board. apply Forall_replicate. reflexivity.
Qed.

Lemma board_wf_row (board : list (list Z)) (i : Z) :
  board_wf board -> 0 <= i < TOTAL_ROWS ->
  exists row, getitem board i = Ok row /\ board !! Z.to_nat i = Some row
              /\ len row = COLS.
Proof.
  intros [Hlen Hrows] Hi.
  destruct (getitem_inside board i) as (row & Hget & Hlk); [lia|].
  exists row. repeat split; try assumption.
  exact (proj1 (Forall_lookup _ _) Hrows _ _ Hlk).
Qed.

(** ** Rotation of the catalog shapes *)

(** C9: for each of the seven catalog matrices, four applications of
    [rotate] (reverse the rows, then take the columns) give back the
    original matrix, cell for cell. *)
Theorem rotate_four_times_catalog (k : piece) :
  rotate (rotate (rotate (rotate (SHAPES k)))) = SHAPES k.
Proof. destruct k; reflexivity. Qed.

(** ** Collision test *)

Lemma truthy_true (c : Z) : truthy c = true <-> c <> 0.
Proof. unfold truthy. destruct (Z.eqb_spec c 0); simpl; split; intros; congruence. Qed.

Lemma truthy_false (c : Z) : truthy c = false <-> c = 0.
Proof. unfold truthy. destruct (Z.eqb_spec c 0); simpl; split; intros; congruence. Qed.

Section Collide.
Variable board : list (list Z).
Hypothesis Hwf : board_wf board.
Variables off_x off_y : Z.

Lemma collide_cell_wf (x y cell : Z) :
  exists hit, collide_cell board off_x off_y x y cell = Ok hit /\
    (hit = true <-> cell <> 0 /\ blocked board (off_x + x) (off_y + y)).
Proof.
  unfold collide_cell, blocked.
  destruct (truthy cell) eqn:Hc.
  2:{ exists false. split; [reflexivity|]. apply truthy_false in Hc.
      split; [discriminate | intros [? _]; contradiction]. }
  apply truthy_true in Hc.
  destruct (Z.ltb_spec (off_x + x) 0) as [Hx0|Hx0]; simpl.
  { exists true. split; [reflexivity|]. split; [intros _|reflexivity]. split; [assumption|lia]. }
  destruct (Z.geb_spec (off_x + x) COLS) as [Hx1|Hx1].
  { exists true. split; [reflexivity|]. split; [intros _|reflexivity]. split; [assumption|lia]. }
  destruct (Z.geb_spec (off_y + y) TOTAL_ROWS) as [Hy1|Hy1].
  { exists true. split; [reflexivity|]. split; [intros _|reflexivity]. split; [assumption|lia]. }
  destruct (Z.geb_spec (off_y + y) 0) as [Hy0|Hy0].
  2:{ exists false. split; [reflexivity|]. split; [discriminate|].
      intros [_ [?|[?|[?|[? _]]]]]; lia. }
  destruct (board_wf_row board (off_y + y) Hwf) as (brow & Hget & _ & Hlen); [lia|].
  destruct (getitem_inside brow (off_x + x)) as (c & Hgc & _); [lia|].
  exists (truthy c). rewrite Hget, bind_Ok, Hgc, bind_Ok.
  split; [reflexivity|]. rewrite truthy_true. split.
  - intros Hnz. split; [assumption|]. right; right; right.
    split; [lia|]. exists brow, c. auto.
  - intros [_ [?|[?|[?|[_ (brow' & c' & Hb & Hc' & Hnz)]]]]]; try lia.
    congruence.
Qed.

Lemma collide_row_wf (y : Z) (row : list Z) : forall x : Z,
  exists b, collide_row board off_x off_y x y row = Ok b /\
    (b = true <->
     exists (i : nat) (cell : Z), row !! i = Some cell /\ cell <> 0 /\
       blocked board (off_x + (x + Z.of_nat i)) (off_y + y)).
Proof.
  induction row as [|cell row IH]; intros x; simpl.
  - exists false. split; [reflexivity|]. split; [discriminate|].
    intros (i & c & Hlk & _). rewrite lookup_nil in Hlk. discriminate.
  - destruct (collide_cell_wf x y cell) as (hit & Hhit & Hspec).
    rewrite Hhit, bind_Ok. destruct hit.
    + exists true. split; [reflexivity|]. split; [intros _|reflexivity].
      destruct (proj1 Hspec eq_refl) as [Hnz Hbl].
      exists 0%nat, cell. repeat split; try assumption.
      replace (x + Z.of_nat 0) with x by lia. assumption.
    + destruct (IH (x + 1)) as (b & Hb & Hbspec).
      exists b. split; [assumption|]. rewrite Hbspec. split.
      * intros (i & c & Hlk & Hnz & Hbl). exists (S i), c.
        repeat split; try assumption.
        replace (x + Z.of_nat (S i)) with (x + 1 + Z.of_nat i) by lia. assumption.
      * intros (i & c & Hlk & Hnz & Hbl). destruct i as [|i].
        -- simpl in Hlk. injection Hlk as <-.
           replace (x + Z.of_nat 0) with x in Hbl by lia.
           discriminate (proj2 Hspec (conj Hnz Hbl)).
        -- exists i, c. repeat split; try assumption.
           replace (x + 1 + Z.of_nat i) with (x + Z.of_nat (S i)) by lia. assumption.
Qed.

Lemma collide_rows_wf (shape : list (list Z)) : forall y : Z,
  exists b, collide_rows board off_x off_y y shape = Ok b /\
    (b = true <->
     exists (i j : nat) (cell : Z), shape_cell shape i j cell /\ cell <> 0 /\
       blocked board (off_x + Z.of_nat i) (off_y + (y + Z.of_nat j))).
Proof.
  induction shape as [|row shape IH]; intros y; simpl.
  - exists false. split; [reflexivity|]. split; [discriminate|].
    intros (i & j & c & (r & Hlk & _) & _). rewrite lookup_nil in Hlk. discriminate.
  - destruct (collide_row_wf y row 0) as (hit & Hhit & Hspec).
    rewrite Hhit, bind_Ok. destruct hit.
    + exists true. split; [reflexivity|]. split; [intros _|reflexivity].
      destruct (proj1 Hspec eq_refl) as (i & c & Hlk & Hnz & Hbl).
      exists i, 0%nat, c. split; [exists row; split; [reflexivity|assumption]|].
      split; [assumption|].
      replace (y + Z.of_nat 0) with y by lia. exact Hbl.
    + destruct (IH (y + 1)) as (b & Hb & Hbspec).
      exists b. split; [assumption|]. rewrite Hbspec. split.
      * intros (i & j & c & (r & Hr & Hlk) & Hnz & Hbl). exists i, (S j), c.
        split; [exists r; split; assumption|]. split; [assumption|].
        replace (y + Z.of_nat (S j)) with (y + 1 + Z.of_nat j) by lia. assumption.
      * intros (i & j & c & (r & Hr & Hlk) & Hnz & Hbl). destruct j as [|j].
        -- simpl in Hr. injection Hr as <-.
           replace (y + Z.of_nat 0) with y in Hbl by lia.
           assert (false = true) as Habs; [|discriminate].
           apply Hspec. exists i, c. repeat split; assumption.
        -- exists i, j, c. split; [exists r; split; assumption|].
           split; [assumption|].
           replace (y + 1 + Z.of_nat j) with (y + Z.of_nat (S j)) by lia. assumption.
Qed.

Lemma collide_wf (shape : list (list Z)) :
  exists b, collide board shape (off_x, off_y) = Ok b /\
    (b = true <->
     exists (i j : nat) (cell : Z), shape_cell shape i j cell /\ cell <> 0 /\
       blocked board (off_x + Z.of_nat i) (off_y + Z.of_nat j)).
Proof. exact (collide_rows_wf shape 0). Qed.

End Collide.

(** C1: on a board of [TOTAL_ROWS] x [COLS] cells [collide] returns, and it
    returns true exactly when some nonzero cell of the shape lands left of
    column 0, right of the last column, below the last row, or on a nonzero
    board cell of a row [by >= 0]; a shape whose nonzero cells all land in
    negative rows, between the side walls, does not collide whatever the
    board holds. *)
Theorem collide_spec (board shape : list (list Z)) (off_x off_y : Z) :
  board_wf board ->
  exists b, collide board shape (off_x, off_y) = Ok b /\
    (b = true <->
     exists (i j : nat) (cell : Z), shape_cell shape i j cell /\ cell <> 0 /\
       let bx := off_x + Z.of_nat i in
       let by_ := off_y + Z.of_nat j in
       bx < 0 \/ bx >= COLS \/ by_ >= TOTAL_ROWS \/
       (by_ >= 0 /\ occupied board bx by_)) /\
    ((forall (i j : nat) (cell : Z), shape_cell shape i j cell -> cell <> 0 ->
        0 <= off_x + Z.of_nat i < COLS /\ off_y + Z.of_nat j < 0) ->
     b = false).
Proof.
  intros Hwf.
  destruct (collide_wf board Hwf off_x off_y shape) as (b & Hb & Hspec).
  exists b. split; [assumption|]. split; [exact Hspec|].
  intros Habove. destruct b; [|reflexivity].
  destruct (proj1 Hspec eq_refl) as (i & j & c & Hcell & Hnz & Hbl).
  destruct (Habove i j c Hcell Hnz) as [Hx Hy].
  destruct Hbl as [?|[?|[?|[? _]]]]; unfold TOTAL_ROWS, VISIBLE_ROWS, HIDDEN_ROWS in *; lia.
Qed.

Lemma full_board_wf : board_wf full_board.
Proof. split; [reflexivity|]. apply Forall_replicate. reflexivity. Qed.

Lemma collide_spec_witness :
  board_wf full_board /\
  exists b, collide full_board (SHAPES key_I) (3, -2) = Ok b /\
    (b = true <->
     exists (i j : nat) (cell : Z),
       shape_cell (SHAPES key_I) i j cell /\ cell <> 0 /\
       let bx := 3 + Z.of_nat i in
       let by_ := -2 + Z.of_nat j in
       bx < 0 \/ bx >= COLS \/ by_ >= TOTAL_ROWS \/
       (by_ >= 0 /\ occupied full_board bx by_)) /\
    ((forall (i j : nat) (cell : Z),
        shape_cell (SHAPES key_I) i j cell -> cell <> 0 ->
        0 <= 3 + Z.of_nat i < COLS /\ -2 + Z.of_nat j < 0) ->
     b = false).
Proof.
  split; [exact full_board_wf|].
  apply (collide_spec full_board (SHAPES key_I) 3 (-2)). exact full_board_wf.
Defined.

(** ** Line clearing *)

Lemma has_empty_spec (row : list Z) : has_empty row = true <-> 0 ∈ row.
Proof.
  unfold has_empty. rewrite existsb_exists, list_elem_of_In. split.
  - intros (c & Hin & Hc). apply Z.eqb_eq in Hc. subst c. assumption.
  - intros Hin. exists 0. split; [assumption|reflexivity].
Qed.

Lemma filter_has_empty (board : list (list Z)) :
  List.filter has_empty board = filter (fun row : list Z => 0 ∈ row) board.
Proof.
  induction board as [|row board IH]; [reflexivity|]. simpl.
  destruct (has_empty row) eqn:Hrow.
  - rewrite filter_cons_True by (apply has_empty_spec; assumption).
    f_equal. assumption.
  - rewrite filter_cons_False; [assumption|].
    intros Hin. apply has_empty_spec in Hin. congruence.
Qed.

Lemma length_filter_full (board : list (list Z)) :
  Nat.add (length (filter (fun row : list Z => 0 ∉ row) board))
          (length (filter (fun row : list Z => 0 ∈ row) board)) = length board.
Proof.
  induction board as [|row board IH]; [reflexivity|].
  destruct (decide (0 ∈ row)) as [Hin|Hin].
  - rewrite (filter_cons_True (fun row : list Z => 0 ∈ row)) by assumption.
    rewrite (filter_cons_False (fun row : list Z => 0 ∉ row)) by (intros H; apply H; assumption).
    simpl. lia.
  - rewrite (filter_cons_False (fun row : list Z => 0 ∈ row)) by assumption.
    rewrite (filter_cons_True (fun row : list Z => 0 ∉ row)) by assumption.
    simpl. lia.
Qed.

Lemma iter_insert_front {A : Type} (n : nat) (z : A) (l : list A) :
  Nat.iter n (fun rows => z :: rows) l = replicate n z ++ l.
Proof. induction n as [|n IH]; simpl; [reflexivity|]. rewrite IH. reflexivity. Qed.

(** [clear_lines] in closed form, for a board of [TOTAL_ROWS] rows. *)
Lemma clear_lines_rows (board : list (list Z)) :
  len board = TOTAL_ROWS ->
  let kept := filter (fun row : list Z => 0 ∈ row) board in
  let full := filter (fun row : list Z => 0 ∉ row) board in
  clear_lines board
  = (replicate (length full) (replicate (Z.to_nat COLS) 0) ++ kept, len full).
Proof.
  intros Hlen kept full.
  assert (Hcount : TOTAL_ROWS - len (List.filter has_empty board) = len full).
  { rewrite filter_has_empty. rewrite <- Hlen. unfold len, full.
    pose proof (length_filter_full board). lia. }
  unfold clear_lines. rewrite Hcount, iter_insert_front, filter_has_empty.
  unfold len. rewrite Nat2Z.id. reflexivity.
Qed.

(** C2: on a board of [TOTAL_ROWS] rows, [clear_lines] returns the number
    of rows without a zero cell, and the board made of that many rows of
    [COLS] zeros followed by the rows that have a zero cell, in their
    order; the new board has [TOTAL_ROWS] rows again. *)
Theorem clear_lines_spec (board : list (list Z)) :
  len board = TOTAL_ROWS ->
  let kept := filter (fun row : list Z => 0 ∈ row) board in
  let full := filter (fun row : list Z => 0 ∉ row) board in
  exists new_rows cleared,
    clear_lines board = (new_rows, cleared) /\
    cleared = len full /\
    new_rows = replicate (Z.to_nat cleared) (replicate (Z.to_nat COLS) 0) ++ kept /\
    len new_rows = TOTAL_ROWS.
Proof.
  intros Hlen kept full.
  eexists _, _. split; [exact (clear_lines_rows board Hlen)|].
  split; [reflexivity|]. fold kept full. unfold len at 1. rewrite Nat2Z.id.
  split; [reflexivity|].
  unfold len. rewrite length_app, length_replicate.
  pose proof (length_filter_full board) as Hsum. fold kept full in Hsum.
  unfold len in Hlen. lia.
Qed.

Lemma clear_lines_spec_witness :
  len two_full_rows = TOTAL_ROWS /\
  exists new_rows cleared,
    clear_lines two_full_rows = (new_rows, cleared) /\
    cleared = len (filter (fun row : list Z => 0 ∉ row) two_full_rows) /\
    new_rows = replicate (Z.to_nat cleared) (replicate (Z.to_nat COLS) 0)
                 ++ filter (fun row : list Z => 0 ∈ row) two_full_rows /\
    len new_rows = TOTAL_ROWS.
Proof.
  split; [reflexivity|].
  apply (clear_lines_spec two_full_rows). reflexivity.
Defined.

Lemma clear_lines_wf (board : list (list Z)) :
  board_wf board ->
  board_wf (fst (clear_lines board)) /\ 0 <= snd (clear_lines board).
Proof.
  intros [Hlen Hrows]. rewrite (clear_lines_rows board Hlen). simpl.
  split; [split|apply Nat2Z.is_nonneg].
  - unfold len. rewrite length_app, length_replicate.
    pose proof (length_filter_full board). unfold len in Hlen. lia.
  - apply Forall_app. split.
    + apply Forall_replicate. reflexivity.
    + apply Forall_forall. intros row Hin. apply list_elem_of_filter in Hin.
      exact (proj1 (Forall_forall _ _) Hrows row (proj2 Hin)).
Qed.

(** ** Merging a piece into the board *)

Section Merge.
Variables off_x off_y : Z.

Lemma merge_cell_wf (board : list (list Z)) (x y cell : Z) :
  board_wf board ->
  exists board', merge_cell board off_x off_y x y cell = Ok board' /\
                 board_wf board'.
Proof.
  intros Hwf. unfold merge_cell.
  destruct (truthy cell); [|exists board; split; [reflexivity|assumption]].
  destruct ((0 <=? off_y + y) && (off_y + y <? TOTAL_ROWS)
            && (0 <=? off_x + x) && (off_x + x <? COLS)) eqn:Hin;
    [|exists board; split; [reflexivity|assumption]].
  apply andb_prop in Hin as [Hin Hx1]. apply andb_prop in Hin as [Hin Hx0].
  apply andb_prop in Hin as [Hy0 Hy1].
  apply Z.leb_le in Hy0, Hx0. apply Z.ltb_lt in Hy1, Hx1.
  destruct (board_wf_row board (off_y + y) Hwf) as (brow & Hget & _ & Hlen); [lia|].
  destruct Hwf as [Hrows Hall].
  rewrite Hget, bind_Ok, (setitem_inside brow) by lia.
  rewrite bind_Ok, (setitem_inside board) by lia.
  eexists. split; [reflexivity|]. split.
  - unfold len in *. rewrite length_insert. assumption.
  - apply Forall_insert; [assumption|].
    unfold len in *. rewrite length_insert. assumption.
Qed.

Lemma merge_row_wf (y : Z) (row : list Z) : forall (board : list (list Z)) (x : Z),
  board_wf board ->
  exists board', merge_row board off_x off_y x y row = Ok board' /\
                 board_wf board'.
Proof.
  induction row as [|cell row IH]; intros board x Hwf; simpl.
  - exists board. split; [reflexivity|assumption].
  - destruct (merge_cell_wf board x y cell Hwf) as (b1 & Hb1 & Hwf1).
    rewrite Hb1, bind_Ok. apply IH. assumption.
Qed.

Lemma merge_rows_wf (shape : list (list Z)) : forall (board : list (list Z)) (y : Z),
  board_wf board ->
  exists board', merge_rows board off_x off_y y shape = Ok board' /\
                 board_wf board'.
Proof.
  induction shape as [|row shape IH]; intros board y Hwf; simpl.
  - exists board. split; [reflexivity|assumption].
  - destruct (merge_row_wf y row board 0 Hwf) as (b1 & Hb1 & Hwf1).
    rewrite Hb1, bind_Ok. apply IH. assumption.
Qed.

End Merge.

Lemma merge_wf (shape board : list (list Z)) (offset : Z * Z) :
  board_wf board ->
  exists board', merge shape board offset = Ok board' /\ board_wf board'.
Proof. destruct offset as [off_x off_y]. apply merge_rows_wf. Qed.

(** ** Spawning *)

Section Spawn.
Import Tetris.

Lemma filter_none {A : Type} (f : A -> bool) (l : list A) :
  (forall a, In a l -> f a = false) -> List.filter f l = [].
Proof.
  induction l as [|a l IH]; intros Hf; [reflexivity|]. simpl.
  rewrite (Hf a) by (left; reflexivity). apply IH.
  intros b Hb. apply Hf. right. assumption.
Qed.

Lemma spec_spawn_order_far (w : Z) (k : nat) :
  0 <= w ->
  List.filter (valid_column w)
    (flat_map (fun i => [(COLS - w) `div` 2 - i; (COLS - w) `div` 2 + i])
       (seqZ 10 (Z.of_nat k))) = [].
Proof.
  intros Hw. apply filter_none. intros c Hc.
  apply in_flat_map in Hc as (i & Hi & Hc).
  apply list_elem_of_In, elem_of_seqZ in Hi.
  unfold valid_column, COLS in *.
  destruct Hc as [<-|[<-|[]]];
    apply andb_false_iff; rewrite Z.leb_gt, Z.leb_gt;
    Z.to_euclidean_division_equations; lia.
Qed.

Lemma spec_spawn_order_stable (w : Z) (n : nat) :
  0 <= w -> (9 <= n)%nat -> spec_spawn_order w n = spec_spawn_order w 9.
Proof.
  intros Hw Hn. unfold spec_spawn_order, center_out.
  replace (Z.of_nat n) with (Z.of_nat 9 + Z.of_nat (n - 9)) by lia.
  rewrite seqZ_app by lia. rewrite flat_map_app, app_comm_cons.
  rewrite List.filter_app. change (1 + Z.of_nat 9) with 10.
  rewrite (spec_spawn_order_far w (n - 9) Hw). apply app_nil_r.
Qed.

(** The candidate list of [find_spawn_x_order] is the spec's order. *)
Lemma find_spawn_x_order_spec (w : Z) (n : nat) :
  0 <= w -> (9 <= n)%nat -> find_spawn_x_order w = spec_spawn_order w n.
Proof.
  intros Hw Hn. rewrite spec_spawn_order_stable by assumption.
  destruct (Z.le_gt_cases w 10) as [Hle|Hgt].
  - assert (w = 0 \/ w = 1 \/ w = 2 \/ w = 3 \/ w = 4 \/ w = 5 \/ w = 6
            \/ w = 7 \/ w = 8 \/ w = 9 \/ w = 10) as Hcases by lia.
    repeat (destruct Hcases as [->|Hcases]; [reflexivity|]).
    subst w. reflexivity.
  - unfold find_spawn_x_order, spec_spawn_order.
    rewrite !filter_none; [reflexivity| |];
      intros c _; unfold valid_column, COLS; apply andb_false_iff;
      rewrite Z.leb_gt, Z.leb_gt; lia.
Qed.

End Spawn.

Section SpawnNew.
Import Tetris.

Lemma catalog_row0 (k : piece) :
  getitem (SHAPES k) 0 = Ok (hd [] (SHAPES k)).
Proof. destruct k; reflexivity. Qed.

Lemma clamp_is_max (a : Z) : (if a <? 0 then 0 else a) = Z.max 0 a.
Proof. destruct (Z.ltb_spec a 0); lia. Qed.

Lemma In_find_spawn_x_order (w c : Z) :
  0 <= w -> In c (find_spawn_x_order w) <-> 0 <= c <= COLS - w.
Proof.
  intros Hw. destruct (Z.le_gt_cases w 10) as [Hle|Hgt].
  - assert (w = 0 \/ w = 1 \/ w = 2 \/ w = 3 \/ w = 4 \/ w = 5 \/ w = 6
            \/ w = 7 \/ w = 8 \/ w = 9 \/ w = 10) as Hcases by lia.
    unfold COLS.
    repeat (destruct Hcases as [->|Hcases];
            [set (l := find_spawn_x_order _); vm_compute in l; subst l;
             simpl; lia|]).
    subst w. set (l := find_spawn_x_order _); vm_compute in l; subst l.
    simpl; lia.
  - unfold find_spawn_x_order. rewrite filter_none.
    + unfold COLS. simpl. lia.
    + intros a _. unfold COLS. apply andb_false_iff.
      rewrite Z.leb_gt, Z.leb_gt. lia.
Qed.

Lemma spawn_search_wf (brd shape : list (list Z)) (sy : Z) :
  board_wf brd -> forall cands : list Z,
  exists found, spawn_search brd shape sy cands = Ok found /\
    match found with
    | Some c =>
        exists pre post, cands = pre ++ c :: post /\
          (forall c', In c' pre -> collide brd shape (c', sy) = Ok true) /\
          collide brd shape (c, sy) = Ok false
    | None => forall c', In c' cands -> collide brd shape (c', sy) = Ok true
    end.
Proof.
  intros Hwf cands. induction cands as [|c cands IH]; simpl.
  - exists None. split; [reflexivity|]. intros c' [].
  - destruct (collide_wf brd Hwf c sy shape) as (b & Hb & _).
    rewrite Hb, bind_Ok. destruct b; simpl.
    + destruct IH as (found & Hfound & Hspec). exists found.
      split; [assumption|]. destruct found as [c0|].
      * destruct Hspec as (pre & post & -> & Hpre & Hfree).
        exists (c :: pre), post. split; [reflexivity|]. split; [|assumption].
        intros c' [<-|Hin]; [assumption|apply Hpre; assumption].
      * intros c' [<-|Hin]; [assumption|apply Hspec; assumption].
    + exists (Some c). split; [reflexivity|].
      exists [], cands. split; [reflexivity|]. split; [intros c' []|assumption].
Qed.

(** [spawn_new] on a well-formed board: either it anchors the piece at
    the first candidate column that is free, or every candidate collides
    and it takes the game-over path. *)
Lemma spawn_new_cases (r : piece) (g : state) :
  board_wf (board g) ->
  let shape := SHAPES (next_type g) in
  let cands := find_spawn_x_order (shape_width shape) in
  let g0 := spawn_entry r g in
  (exists c pre post, cands = pre ++ c :: post /\
     (forall c', In c' pre ->
        collide (board g) shape (c', spawn_row shape) = Ok true) /\
     collide (board g) shape (c, spawn_row shape) = Ok false /\
     spawn_new r g = Ok (set_y (set_x g0 c) (spawn_row shape)))
  \/ ((forall c', In c' cands ->
         collide (board g) shape (c', spawn_row shape) = Ok true) /\
      spawn_new r g = Ok (spawn_failed g0)).
Proof.
  intros Hwf shape cands g0. unfold spawn_new. simpl.
  rewrite catalog_row0, bind_Ok, clamp_is_max.
  fold shape. fold (shape_height shape). fold (spawn_row shape).
  fold (shape_width shape). fold cands.
  destruct (spawn_search_wf (board g) shape (spawn_row shape) Hwf cands)
    as (found & Hfound & Hspec).
  rewrite Hfound, bind_Ok. destruct found as [c|].
  - left. destruct Hspec as (pre & post & Hsplit & Hpre & Hfree).
    exists c, pre, post. repeat split; assumption.
  - right. split; [assumption|reflexivity].
Qed.

Lemma spawn_new_wf_ok (r : piece) (g : state) :
  board_wf (board g) -> exists g', spawn_new r g = Ok g'.
Proof.
  intros Hwf.
  destruct (spawn_new_cases r g Hwf)
    as [(c & pre & post & _ & _ & _ & Hnew)|[_ Hnew]];
    eexists; exact Hnew.
Qed.

(** What the game-over path and [spawn_new] leave alone. *)
Lemma spawn_failed_frame (g : state) :
  board (spawn_failed g) = board g /\ score (spawn_failed g) = score g /\
  level (spawn_failed g) = level g /\ lines (spawn_failed g) = lines g /\
  paused (spawn_failed g) = paused g /\
  current_shape (spawn_failed g) = current_shape g /\
  game_over (spawn_failed g) = true.
Proof.
  destruct g. unfold spawn_failed. fields.
  destruct (_ >? _), (_ >? _); repeat split; reflexivity.
Qed.

Lemma spawn_new_frame (r : piece) (g g' : state) :
  spawn_new r g = Ok g' ->
  board g' = board g /\ score g' = score g /\ level g' = level g /\
  lines g' = lines g /\ paused g' = paused g /\
  current_shape g' = SHAPES (next_type g).
Proof.
  unfold spawn_new. intros H.
  apply bind_Ok_inv in H as (row0 & _ & H).
  apply bind_Ok_inv in H as (found & _ & H).
  destruct found as [c|]; injection H as <-.
  - repeat split; reflexivity.
  - pose proof (spawn_failed_frame (spawn_entry r g)) as F.
    unfold spawn_entry in F. fields_in F.
    destruct F as (F1 & F2 & F3 & F4 & F5 & F6 & _).
    repeat split; assumption.
Qed.

End SpawnNew.


Section SpawnClaims.
Import Tetris.

Lemma spawn_failed_over (g : state) : game_over (spawn_failed g) = true.
Proof. apply spawn_failed_frame. Qed.

Lemma spawn_failed_highs (g : state) :
  high_level (spawn_failed g)
  = (if level g >? high_level g then level g else high_level g) /\
  high_lines (spawn_failed g)
  = (if lines g >? high_lines g then lines g else high_lines g) /\
  saved (spawn_failed g)
  = saved g ++
      (if (level g >? high_level g) || (lines g >? high_lines g)
       then [(high_level (spawn_failed g), high_lines (spawn_failed g))]
       else []).
Proof.
  destruct g. unfold spawn_failed. fields.
  destruct (_ >? _), (_ >? _); simpl; rewrite ?app_nil_r;
    repeat split; reflexivity.
Qed.

(** C4: the candidate columns of [find_spawn_x_order] are the centre-out
    order [center, center-1, center+1, ...] with
    [center = (COLS - w) // 2], restricted to [0 <= x <= COLS - w]; and
    [spawn_new] anchors the piece at row [HIDDEN_ROWS - h] clamped at 0 and
    at the first column of that order where the shape does not collide,
    whenever there is one.  Nothing but the board and the shape enters. *)
Theorem spawn_placement (w : Z) (n : nat) (r : piece) (g : state) :
  0 <= w -> (9 <= n)%nat -> board_wf (board g) ->
  find_spawn_x_order w
  = List.filter (valid_column w) (center_out ((COLS - w) `div` 2) n)
  /\
  let shape := SHAPES (next_type g) in
  let order :=
    List.filter (valid_column (shape_width shape))
      (center_out ((COLS - shape_width shape) `div` 2) n) in
  let free c := collide (board g) shape (c, spawn_row shape) = Ok false in
  exists g', spawn_new r g = Ok g' /\ current_shape g' = shape /\
    ((exists c, In c order /\ free c) ->
     y g' = Z.max 0 (HIDDEN_ROWS - shape_height shape) /\
     exists pre post, order = pre ++ x g' :: post /\ free (x g') /\
       forall c', In c' pre -> ~ free c').
Proof.
  intros Hw Hn Hwf. split; [apply find_spawn_x_order_spec; assumption|].
  intros shape order free.
  assert (Horder : find_spawn_x_order (shape_width shape) = order).
  { apply find_spawn_x_order_spec; [apply Nat2Z.is_nonneg|assumption]. }
  pose proof (spawn_new_cases r g Hwf) as Hcases. cbv zeta in Hcases.
  fold shape in Hcases. rewrite Horder in Hcases.
  destruct Hcases as [(c & pre & post & Hsplit & Hpre & Hfree & Hnew)|[Hnone Hnew]];
    eexists; (split; [exact Hnew|]);
    (split; [apply spawn_new_frame in Hnew; apply Hnew|]).
  - intros _. split; [reflexivity|]. exists pre, post. fields.
    split; [assumption|]. split; [assumption|].
    intros c' Hin Hc'. unfold free in Hc'. rewrite (Hpre c' Hin) in Hc'.
    discriminate.
  - intros (c & Hin & Hc). unfold free in Hc. rewrite (Hnone c Hin) in Hc.
    discriminate.
Qed.

Lemma spawn_placement_witness :
  let g := blank 0 0 key_T in
  let shape := SHAPES key_T in
  let order :=
    List.filter (valid_column (shape_width shape))
      (center_out ((COLS - shape_width shape) `div` 2) 9) in
  let free c := collide (board g) shape (c, spawn_row shape) = Ok false in
  (0 <= 3 /\ (9 <= 9)%nat /\ board_wf (board g)) /\
  find_spawn_x_order 3
  = List.filter (valid_column 3) (center_out ((COLS - 3) `div` 2) 9)
  /\
  exists g', spawn_new key_O g = Ok g' /\ current_shape g' = shape /\
    ((exists c, In c order /\ free c) ->
     y g' = Z.max 0 (HIDDEN_ROWS - shape_height shape) /\
     exists pre post, order = pre ++ x g' :: post /\ free (x g') /\
       forall c', In c' pre -> ~ free c').
Proof.
  intros g shape order free.
  assert (Hwf : board_wf (board g)) by exact new_board_wf.
  split; [split; [lia|split; [lia|exact Hwf]]|].
  apply (spawn_placement 3 9 key_O g); [lia|lia|exact Hwf].
Defined.

(** C5: [spawn_new] sets [game_over] exactly when the spawning shape
    collides at every column of [0 .. COLS - w] on its spawn row.  On that
    path each high-score field takes the current counter when the counter
    is strictly greater, and [save_stats] is called once, with the updated
    pair, if and only if one of the two fields changed; otherwise the
    flag, the two fields and the trace of saves stay as they are. *)
Theorem spawn_game_over (r : piece) (g : state) :
  board_wf (board g) ->
  let shape := SHAPES (next_type g) in
  let w := shape_width shape in
  let free c := collide (board g) shape (c, spawn_row shape) = Ok false in
  exists g', spawn_new r g = Ok g' /\
    ((exists c, 0 <= c <= COLS - w /\ free c) ->
     game_over g' = game_over g /\ high_level g' = high_level g /\
     high_lines g' = high_lines g /\ saved g' = saved g) /\
    ((forall c, 0 <= c <= COLS - w -> ~ free c) ->
     game_over g' = true /\
     high_level g' = (if level g >? high_level g then level g else high_level g) /\
     high_lines g' = (if lines g >? high_lines g then lines g else high_lines g) /\
     saved g' = saved g ++
       (if (level g >? high_level g) || (lines g >? high_lines g)
        then [(high_level g', high_lines g')] else [])) /\
    (game_over g = false ->
     (game_over g' = true <-> forall c, 0 <= c <= COLS - w -> ~ free c)).
Proof.
  intros Hwf shape w free.
  assert (Hw : 0 <= w) by apply Nat2Z.is_nonneg.
  pose proof (spawn_new_cases r g Hwf) as Hcases. cbv zeta in Hcases.
  fold shape in Hcases. fold w in Hcases.
  destruct Hcases as [(c & pre & post & Hsplit & Hpre & Hfree & Hnew)|[Hnone Hnew]];
    eexists; (split; [exact Hnew|]).
  - assert (Hc : 0 <= c <= COLS - w).
    { apply (proj1 (In_find_spawn_x_order w c Hw)).
      rewrite Hsplit. apply in_or_app. right. left. reflexivity. }
    split; [intros _; repeat split; reflexivity|].
    split; [intros Hall; destruct (Hall c Hc Hfree)|].
    intros Hrun.
    assert (Hgo : game_over (set_y (set_x (spawn_entry r g) c) (spawn_row shape))
                  = game_over g) by reflexivity.
    rewrite Hgo, Hrun. split; [discriminate|].
    intros Hall; destruct (Hall c Hc Hfree).
  - assert (Hall : forall c, 0 <= c <= COLS - w -> ~ free c).
    { intros c Hc Hf. unfold free in Hf.
      rewrite (Hnone c) in Hf; [discriminate|].
      apply (proj2 (In_find_spawn_x_order w c Hw)). assumption. }
    split; [intros (c & Hc & Hf); destruct (Hall c Hc Hf)|].
    assert (Hover : game_over (spawn_failed (spawn_entry r g)) = true).
    { apply spawn_failed_over. }
    split; [|intros _; split; [intros _; exact Hall|intros _; exact Hover]].
    intros _. split; [exact Hover|].
    exact (spawn_failed_highs (spawn_entry r g)).
Qed.

Lemma spawn_game_over_witness :
  let g := set_board (blank 0 0 key_T) full_board in
  let shape := SHAPES key_T in
  let w := shape_width shape in
  let free c := collide (board g) shape (c, spawn_row shape) = Ok false in
  board_wf (board g) /\
  exists g', spawn_new key_O g = Ok g' /\
    ((exists c, 0 <= c <= COLS - w /\ free c) ->
     game_over g' = game_over g /\ high_level g' = high_level g /\
     high_lines g' = high_lines g /\ saved g' = saved g) /\
    ((forall c, 0 <= c <= COLS - w -> ~ free c) ->
     game_over g' = true /\
     high_level g' = (if level g >? high_level g then level g else high_level g) /\
     high_lines g' = (if lines g >? high_lines g then lines g else high_lines g) /\
     saved g' = saved g ++
       (if (level g >? high_level g) || (lines g >? high_lines g)
        then [(high_level g', high_lines g')] else [])) /\
    (game_over g = false ->
     (game_over g' = true <-> forall c, 0 <= c <= COLS - w -> ~ free c)).
Proof.
  intros g shape w free.
  assert (Hwf : board_wf (board g)) by exact full_board_wf.
  split; [exact Hwf|].
  apply (spawn_game_over key_O g Hwf).
Defined.

End SpawnClaims.

(** ** Locking and scoring *)

Section Lock.
Import Tetris.

Lemma lock_scoring_frame (c : Z) (g : state) :
  board (lock_scoring c g) = board g /\
  paused (lock_scoring c g) = paused g /\
  next_type (lock_scoring c g) = next_type g /\
  game_over (lock_scoring c g) = game_over g.
Proof.
  destruct g. unfold lock_scoring. fields.
  destruct (truthy c); [destruct (_ >? _), (_ >? _)|];
    repeat split; reflexivity.
Qed.

Lemma lock_scoring_counters (c : Z) (g : state) :
  (c <> 0 ->
   score (lock_scoring c g) = score g + 100 * c * level g /\
   lines (lock_scoring c g) = lines g + c /\
   level (lock_scoring c g) = 1 + (lines g + c) `div` 10) /\
  (c = 0 ->
   score (lock_scoring c g) = score g /\
   lines (lock_scoring c g) = lines g /\
   level (lock_scoring c g) = level g).
Proof.
  destruct g. unfold lock_scoring. fields. split; intros Hc.
  - apply truthy_true in Hc. rewrite Hc.
    destruct (_ >? _), (_ >? _); repeat split; reflexivity.
  - apply truthy_false in Hc. rewrite Hc. repeat split; reflexivity.
Qed.

(** [lock_piece] on a well-formed board: the merge succeeds, and the rest
    is the scoring of the cleared rows followed by a spawn. *)
Lemma lock_piece_wf (r : piece) (g : state) :
  board_wf (board g) ->
  exists b, merge (current_shape g) (board g) (x g, y g) = Ok b /\
    board_wf b /\
    lock_piece r g
    = spawn_new r (lock_scoring (snd (clear_lines b))
                     (set_board g (fst (clear_lines b)))).
Proof.
  intros Hwf.
  destruct (merge_wf (current_shape g) (board g) (x g, y g) Hwf) as (b & Hb & Hwfb).
  exists b. split; [assumption|]. split; [assumption|].
  unfold lock_piece. rewrite Hb, bind_Ok.
  destruct (clear_lines b) as [new_rows cleared]. reflexivity.
Qed.

(** C6: a lock on a well-formed board merges the piece and counts the
    rows [c] of the merged board without a zero cell.  For [c >= 1] the
    score grows by [100 * c * L], [L] the level before the lock, the line
    counter grows by [c], and the level becomes [1 + lines // 10]; for
    [c = 0] the three counters stay.  Three rows at level 2 add 600. *)
Theorem lock_piece_scoring (r : piece) (g : state) :
  board_wf (board g) ->
  exists b g',
    merge (current_shape g) (board g) (x g, y g) = Ok b /\
    lock_piece r g = Ok g' /\
    let c := len (filter (fun row : list Z => 0 ∉ row) b) in
    (1 <= c ->
     score g' = score g + 100 * c * level g /\
     lines g' = lines g + c /\
     level g' = 1 + (lines g + c) `div` 10) /\
    (c = 0 ->
     score g' = score g /\ lines g' = lines g /\ level g' = level g) /\
    (c = 3 -> level g = 2 -> score g' = score g + 600).
Proof.
  intros Hwf.
  destruct (lock_piece_wf r g Hwf) as (b & Hb & Hwfb & Hlock).
  pose proof (clear_lines_wf b Hwfb) as [Hwfc _].
  rewrite (clear_lines_rows b (proj1 Hwfb)) in Hlock, Hwfc.
  cbn [fst snd] in Hlock, Hwfc.
  set (c := len (filter (fun row : list Z => 0 ∉ row) b)) in *.
  set (g1 := set_board g _) in Hlock.
  destruct (spawn_new_wf_ok r (lock_scoring c g1)) as (g' & Hnew).
  { rewrite (proj1 (lock_scoring_frame c g1)). exact Hwfc. }
  exists b, g'. split; [exact Hb|]. split; [rewrite Hlock; exact Hnew|].
  apply spawn_new_frame in Hnew as (_ & -> & -> & -> & _).
  destruct (lock_scoring_counters c g1) as [Hpos Hzero].
  change (score g1) with (score g) in *. change (lines g1) with (lines g) in *.
  change (level g1) with (level g) in *.
  split; [intros Hge; apply Hpos; lia|]. split; [exact Hzero|].
  intros H3 HL. destruct Hpos as (-> & _); [lia|].
  replace c with 3 by (symmetry; exact H3). rewrite HL. reflexivity.
Qed.

Lemma three_rows_state_wf : board_wf (board three_rows_state).
Proof. apply board_wf_b_spec. reflexivity. Qed.

Lemma lock_piece_scoring_witness :
  board_wf (board three_rows_state) /\
  exists b g',
    merge (current_shape three_rows_state) (board three_rows_state) (-2, 20)
    = Ok b /\
    lock_piece key_T three_rows_state = Ok g' /\
    let c := len (filter (fun row : list Z => 0 ∉ row) b) in
    (1 <= c ->
     score g' = 1500 + 100 * c * 2 /\
     lines g' = 12 + c /\
     level g' = 1 + (12 + c) `div` 10) /\
    (c = 0 -> score g' = 1500 /\ lines g' = 12 /\ level g' = 2) /\
    (c = 3 -> 2 = 2 -> score g' = 1500 + 600).
Proof.
  split; [exact three_rows_state_wf|].
  apply (lock_piece_scoring key_T three_rows_state). exact three_rows_state_wf.
Defined.

End Lock.

(** ** Reachable states *)

Lemma reachable_run (fuel : nat) (events : list (event * piece)) :
  forall g g', reachable g -> run fuel events g = Some (Ok g') -> reachable g'.
Proof.
  induction events as [|[ev r] events IH]; intros g g' Hg Hrun; simpl in Hrun.
  - injection Hrun as <-. assumption.
  - destruct (handle_event fuel ev r g) as [[g1|]|] eqn:Hev; try discriminate.
    apply (IH g1); [|assumption].
    apply (reachable_step fuel ev r g); assumption.
Qed.

Section Invariants.
Import Tetris.

Variable Inv : state -> Prop.
Hypothesis Inv_y : forall g v, Inv g -> Inv (set_y g v).
Hypothesis Inv_x : forall g v, Inv g -> Inv (set_x g v).
Hypothesis Inv_paused : forall g v, Inv g -> Inv (set_paused g v).
Hypothesis Inv_save : forall g, Inv g -> Inv (save_stats g).
Hypothesis Inv_rotate :
  forall g, Inv g -> Inv (set_current_shape g (rotate (current_shape g))).
Hypothesis Inv_lock :
  forall r g g', Inv g -> lock_piece r g = Ok g' -> Inv g'.
Hypothesis Inv_reset :
  forall r g g', Inv g -> spawn_new r (reset_fields g) = Ok g' -> Inv g'.

Lemma hard_drop_loop_preserves (fuel : nat) : forall g g1,
  Inv g -> hard_drop_loop fuel g = Some (Ok g1) -> Inv g1.
Proof.
  induction fuel as [|fuel IH]; intros g g1 Hg Hloop; simpl in Hloop;
    [discriminate|].
  destruct (collide (board g) (current_shape g) (x g, y g + 1)) as [c|];
    [|discriminate].
  destruct c; simpl in Hloop.
  - injection Hloop as <-. assumption.
  - apply (IH (set_y g (y g + 1))); [apply Inv_y|]; assumption.
Qed.

Lemma soft_drop_preserves (r : piece) (g g' : state) (falling : bool) :
  Inv g -> soft_drop r g = Ok (g', falling) -> Inv g'.
Proof.
  intros Hg H. unfold soft_drop in H.
  apply bind_Ok_inv in H as (c & _ & H). destruct c; simpl in H.
  - apply bind_Ok_inv in H as (g1 & Hlock & H). injection H as <- _.
    apply (Inv_lock r g); assumption.
  - injection H as <- _. apply Inv_y. assumption.
Qed.

Lemma handle_event_preserves (fuel : nat) (ev : event) (r : piece)
  (g g' : state) :
  Inv g -> handle_event fuel ev r g = Some (Ok g') -> Inv g'.
Proof.
  intros Hg H.
  assert (Hdrop : forall h, (gb ← soft_drop r g; Ok (fst gb)) = Ok h -> Inv h).
  { intros h Hh. apply bind_Ok_inv in Hh as ([g1 fl] & Hsd & Hh).
    injection Hh as <-. apply (soft_drop_preserves r g g1 fl); assumption. }
  destruct ev; simpl in H.
  - (* FALL_EVENT *)
    destruct (negb (paused g) && negb (game_over g)) eqn:Hrun.
    + injection H as H. unfold update in H.
      destruct (game_over g || paused g); [injection H as <-; assumption|].
      apply Hdrop. assumption.
    + injection H as <-. assumption.
  - injection H as <-. assumption.
  - injection H as <-. apply Inv_save. assumption.
  - injection H as H. apply (Inv_reset r g); assumption.
  - injection H as <-. apply Inv_paused. assumption.
  - destruct (negb (game_over g) && negb (paused g));
      [|injection H as <-; assumption].
    injection H as H. unfold move in H.
    apply bind_Ok_inv in H as (c & _ & H).
    destruct c; injection H as <-; [|apply Inv_x]; assumption.
  - destruct (negb (game_over g) && negb (paused g));
      [|injection H as <-; assumption].
    injection H as H. unfold move in H.
    apply bind_Ok_inv in H as (c & _ & H).
    destruct c; injection H as <-; [|apply Inv_x]; assumption.
  - destruct (negb (game_over g) && negb (paused g));
      [|injection H as <-; assumption].
    injection H as H. unfold rotate_piece in H.
    apply bind_Ok_inv in H as (c & _ & H).
    destruct c; injection H as <-; [|apply Inv_rotate]; assumption.
  - destruct (negb (game_over g) && negb (paused g));
      [|injection H as <-; assumption].
    injection H as H. apply Hdrop. assumption.
  - destruct (negb (game_over g) && negb (paused g));
      [|injection H as <-; assumption].
    unfold hard_drop in H.
    destruct (hard_drop_loop fuel g) as [[g1|]|] eqn:Hloop; try discriminate.
    injection H as H. change (lock_piece r g1 = Ok g') in H.
    apply (Inv_lock r g1); [|assumption].
    apply (hard_drop_loop_preserves fuel g); assumption.
  - destruct (negb (game_over g) && negb (paused g));
      injection H as <-; assumption.
Qed.

Hypothesis Inv_init :
  forall hl hn r1 r2 g, init hl hn r1 r2 = Ok g -> Inv g.

Lemma reachable_preserves (g : state) : reachable g -> Inv g.
Proof.
  induction 1 as [hl hn r1 r2 g Hinit|fuel ev r g g' _ IH Hev].
  - apply (Inv_init hl hn r1 r2). assumption.
  - apply (handle_event_preserves fuel ev r g); assumption.
Qed.

End Invariants.

Section ReachableFacts.
Import Tetris.

Lemma lock_piece_level_inv (r : piece) (g g' : state) :
  lock_piece r g = Ok g' -> level_inv g -> level_inv g'.
Proof.
  unfold lock_piece, level_inv. intros H Hg.
  apply bind_Ok_inv in H as (b & _ & H).
  destruct (clear_lines b) as [new_rows c].
  apply spawn_new_frame in H as (_ & _ & -> & -> & _).
  destruct (lock_scoring_counters c (set_board g new_rows)) as [Hpos Hzero].
  destruct (Z.eq_dec c 0) as [Hc|Hc].
  - destruct (Hzero Hc) as (_ & -> & ->). exact Hg.
  - destruct (Hpos Hc) as (_ & -> & ->). reflexivity.
Qed.

Lemma reachable_level_inv (g : state) : reachable g -> level_inv g.
Proof.
  apply reachable_preserves; unfold level_inv; try (intros; assumption).
  - intros r g0 g' Hg0 H. exact (lock_piece_level_inv r g0 g' H Hg0).
  - intros r g0 g' _ H. apply spawn_new_frame in H as (_ & _ & -> & -> & _).
    reflexivity.
  - intros hl hn r1 r2 g0 H. apply spawn_new_frame in H as (_ & _ & -> & -> & _).
    reflexivity.
Qed.

Lemma lock_piece_board_wf (r : piece) (g g' : state) :
  board_wf (board g) -> lock_piece r g = Ok g' -> board_wf (board g').
Proof.
  intros Hwf H. destruct (lock_piece_wf r g Hwf) as (b & _ & Hwfb & Hlock).
  rewrite Hlock in H. apply spawn_new_frame in H as (-> & _).
  rewrite (proj1 (lock_scoring_frame _ _)). simpl.
  exact (proj1 (clear_lines_wf b Hwfb)).
Qed.

Lemma reachable_board_wf (g : state) : reachable g -> board_wf (board g).
Proof.
  apply (reachable_preserves (fun g => board_wf (board g)));
    try (intros; assumption).
  - intros r g0 g' Hg0 H. exact (lock_piece_board_wf r g0 g' Hg0 H).
  - intros r g0 g' _ H. apply spawn_new_frame in H as (-> & _).
    exact new_board_wf.
  - intros hl hn r1 r2 g0 H. apply spawn_new_frame in H as (-> & _).
    exact new_board_wf.
Qed.

Lemma rotate_catalog_shape (shape : list (list Z)) :
  catalog_shape shape -> catalog_shape (rotate shape).
Proof.
  intros [k Hin]. exists k. unfold orientations in *. simpl in *.
  destruct Hin as [<-|[<-|[<-|[<-|[]]]]]; auto.
  left. destruct k; reflexivity.
Qed.

Lemma reachable_catalog_shape (g : state) :
  reachable g -> catalog_shape (current_shape g).
Proof.
  apply (reachable_preserves (fun g => catalog_shape (current_shape g)));
    try (intros; assumption).
  - intros g0 Hg0. simpl. apply rotate_catalog_shape. assumption.
  - intros r g0 g' _ H. unfold lock_piece in H.
    apply bind_Ok_inv in H as (b & _ & H).
    destruct (clear_lines b) as [new_rows c].
    apply spawn_new_frame in H as (_ & _ & _ & _ & _ & ->).
    eexists. left. reflexivity.
  - intros r g0 g' _ H.
    apply spawn_new_frame in H as (_ & _ & _ & _ & _ & ->).
    eexists. left. reflexivity.
  - intros hl hn r1 r2 g0 H.
    apply spawn_new_frame in H as (_ & _ & _ & _ & _ & ->).
    eexists. left. reflexivity.
Qed.

End ReachableFacts.

(** ** Whole games *)

Lemma reachable_play (fuel : nat) (hl hn : Z) (r1 r2 : piece)
  (events : list (event * piece)) (g : Tetris.state) :
  play fuel hl hn r1 r2 events = Some (Ok g) -> reachable g.
Proof.
  unfold play. destruct (Tetris.init hl hn r1 r2) as [g0|] eqn:Hinit;
    [|discriminate].
  intros Hrun. apply (reachable_run fuel events g0); [|assumption].
  exact (reachable_init hl hn r1 r2 g0 Hinit).
Qed.

(** ** The level equation *)

(** C3: in every state reachable from construction by events of the main
    loop (timer tick, move, rotate, soft drop, hard drop with its lock,
    pause, reset), [level = 1 + lines // 10]; so 9 lines give level 1, 10
    lines level 2 and 29 lines level 3. *)
Theorem level_invariant (g : Tetris.state) :
  reachable g ->
  Tetris.level g = 1 + Tetris.lines g `div` 10 /\
  (Tetris.lines g = 9 -> Tetris.level g = 1) /\
  (Tetris.lines g = 10 -> Tetris.level g = 2) /\
  (Tetris.lines g = 29 -> Tetris.level g = 3).
Proof.
  intros Hg. pose proof (reachable_level_inv g Hg) as Hlevel.
  unfold level_inv in Hlevel. split; [exact Hlevel|].
  repeat split; intros Hlines; rewrite Hlevel, Hlines; reflexivity.
Qed.

Lemma level_invariant_witness :
  exists g, play 30 0 0 key_I key_I one_line_game = Some (Ok g) /\
    reachable g /\ Tetris.lines g = 1 /\
    (Tetris.level g = 1 + Tetris.lines g `div` 10 /\
     (Tetris.lines g = 9 -> Tetris.level g = 1) /\
     (Tetris.lines g = 10 -> Tetris.level g = 2) /\
     (Tetris.lines g = 29 -> Tetris.level g = 3)).
Proof.
  eexists. split; [vm_compute; reflexivity|].
  assert (Hg : forall g, play 30 0 0 key_I key_I one_line_game = Some (Ok g) ->
                         reachable g)
    by exact (reachable_play 30 0 0 key_I key_I one_line_game).
  match goal with
  | |- reachable ?g /\ _ =>
      assert (Hreach : reachable g) by (apply Hg; vm_compute; reflexivity)
  end.
  split; [exact Hreach|]. split; [reflexivity|].
  apply level_invariant. exact Hreach.
Defined.

(** ** Pause and game over *)

(** After a lost game the pause key still sets the [paused] flag; the
    state so reached has status GameOver, and the reset key takes it to
    Paused. *)
Lemma paused_after_game_over :
  exists g g1 g2,
    play 30 0 0 key_I key_I lost_game = Some (Ok g) /\
    reachable g /\ status_of g = GameOver /\
    handle_event 0 K_p key_I g = Some (Ok g1) /\
    Tetris.paused g1 = true /\
    reachable g1 /\ status_of g1 = GameOver /\
    handle_event 0 K_r key_I g1 = Some (Ok g2) /\
    status_of g2 = Paused.
Proof.
  eexists _, _, _.
  split; [vm_compute; reflexivity|].
  match goal with
  | |- reachable ?g /\ _ =>
      assert (Hg : reachable g)
        by (apply (reachable_play 30 0 0 key_I key_I lost_game);
            vm_compute; reflexivity)
  end.
  split; [exact Hg|]. split; [reflexivity|].
  split; [vm_compute; reflexivity|]. split; [reflexivity|].
  split; [|split; [reflexivity|split; [vm_compute; reflexivity|reflexivity]]].
  eapply (reachable_step 0 K_p key_I); [exact Hg|]. vm_compute. reflexivity.
Qed.

Lemma reset_total (r : piece) (g : Tetris.state) :
  exists g', Tetris.spawn_new r (reset_fields g) = Ok g' /\
    Tetris.game_over g' = false /\ Tetris.paused g' = Tetris.paused g.
Proof.
  destruct g as [b sc lv ln hl hn over p nt ct cs gx gy sv].
  destruct nt; eexists; (split; [vm_compute; reflexivity|]);
    split; reflexivity.
Qed.

(** C7, amended: the pause key toggles the [paused] flag in every state,
    so it toggles Running and Paused while [game_over] is unset.  While
    [game_over] is set, every event but the reset key keeps it set, and
    the timer tick and the move, rotate and drop keys change nothing.
    The reset key clears [game_over] and leaves [paused] as it is. *)
Theorem pause_and_game_over (fuel : nat) (ev : event) (r : piece)
  (g : Tetris.state) :
  handle_event fuel K_p r g
  = Some (Ok (Tetris.set_paused g (negb (Tetris.paused g)))) /\
  status_of (Tetris.set_paused g (negb (Tetris.paused g)))
  = match status_of g with
    | Running => Paused
    | Paused => Running
    | GameOver => GameOver
    end /\
  (Tetris.game_over g = true -> ev <> K_r ->
   exists g', handle_event fuel ev r g = Some (Ok g') /\
     Tetris.game_over g' = true /\
     (ev <> K_p -> ev <> K_s -> g' = g)) /\
  (exists g', handle_event fuel K_r r g = Some (Ok g') /\
     Tetris.game_over g' = false /\ Tetris.paused g' = Tetris.paused g).
Proof.
  split; [reflexivity|]. split; [|split].
  - unfold status_of. destruct g as [? ? ? ? ? ? over p ? ? ? ? ? ?].
    fields. destruct over, p; reflexivity.
  - intros Hover Hev.
    destruct ev; simpl; rewrite ?Hover, ?andb_false_r; simpl;
      try contradiction; eexists; (split; [reflexivity|]);
      (split; [exact Hover|]); intros Hp Hs;
      try contradiction; reflexivity.
  - destruct (reset_total r g) as (g' & Hnew & Hover & Hp).
    exists g'. split; [|split; assumption].
    simpl. unfold reset_fields in Hnew. rewrite Hnew. reflexivity.
Qed.

Lemma pause_and_game_over_witness :
  exists g, play 30 0 0 key_I key_I lost_game = Some (Ok g) /\
    Tetris.game_over g = true /\ K_SPACE <> K_r /\
    (handle_event 30 K_p key_I g
     = Some (Ok (Tetris.set_paused g (negb (Tetris.paused g)))) /\
     status_of (Tetris.set_paused g (negb (Tetris.paused g)))
     = match status_of g with
       | Running => Paused
       | Paused => Running
       | GameOver => GameOver
       end /\
     (Tetris.game_over g = true -> K_SPACE <> K_r ->
      exists g', handle_event 30 K_SPACE key_I g = Some (Ok g') /\
        Tetris.game_over g' = true /\
        (K_SPACE <> K_p -> K_SPACE <> K_s -> g' = g)) /\
     (exists g', handle_event 30 K_r key_I g = Some (Ok g') /\
        Tetris.game_over g' = false /\ Tetris.paused g' = Tetris.paused g)).
Proof.
  eexists. split; [vm_compute; reflexivity|].
  split; [reflexivity|]. split; [discriminate|].
  apply (pause_and_game_over 30 K_SPACE key_I).
Defined.

(** ** Termination of the hard drop *)

Section Floor.
Variable board : list (list Z).
Variables off_x off_y : Z.

Lemma collide_cell_floor (x y cell : Z) :
  cell <> 0 -> off_y + y >= TOTAL_ROWS ->
  collide_cell board off_x off_y x y cell = Ok true.
Proof.
  intros Hc Hy. unfold collide_cell.
  rewrite (proj2 (truthy_true cell) Hc).
  destruct ((off_x + x <? 0) || (off_x + x >=? COLS)); [reflexivity|].
  destruct (Z.geb_spec (off_y + y) TOTAL_ROWS); [reflexivity|lia].
Qed.

Lemma collide_row_floor (y : Z) (row : list Z) :
  off_y + y >= TOTAL_ROWS ->
  forall (i : nat) (cell x : Z), row !! i = Some cell -> cell <> 0 ->
  collide_row board off_x off_y x y row <> Ok false.
Proof.
  intros Hy. induction row as [|a row IH]; intros i cell x Hlk Hc.
  - rewrite lookup_nil in Hlk. discriminate.
  - simpl. destruct i as [|i]; simpl in Hlk.
    + injection Hlk as ->. rewrite collide_cell_floor by assumption.
      discriminate.
    + destruct (collide_cell board off_x off_y x y a) as [[|]|];
        [discriminate| |discriminate].
      rewrite bind_Ok. exact (IH i cell (x + 1) Hlk Hc).
Qed.

Lemma collide_rows_floor (shape : list (list Z)) :
  forall (j i : nat) (row : list Z) (cell y : Z),
  shape !! j = Some row -> row !! i = Some cell -> cell <> 0 ->
  off_y + (y + Z.of_nat j) >= TOTAL_ROWS ->
  collide_rows board off_x off_y y shape <> Ok false.
Proof.
  induction shape as [|a shape IH]; intros j i row cell y Hrow Hlk Hc Hy.
  - rewrite lookup_nil in Hrow. discriminate.
  - simpl. destruct j as [|j]; simpl in Hrow.
    + injection Hrow as ->.
      assert (Hrowc : collide_row board off_x off_y 0 y row <> Ok false).
      { apply (collide_row_floor y row) with (i := i) (cell := cell);
          [lia|assumption|assumption]. }
      destruct (collide_row board off_x off_y 0 y row) as [[|]|];
        [discriminate|contradiction|discriminate].
    + destruct (collide_row board off_x off_y 0 y a) as [[|]|];
        [discriminate| |discriminate].
      rewrite bind_Ok. apply (IH j i row cell (y + 1) Hrow Hlk Hc). lia.
Qed.

Lemma collide_row_empty (y : Z) (row : list Z) :
  (forall (i : nat) (cell : Z), row !! i = Some cell -> cell = 0) ->
  forall x, collide_row board off_x off_y x y row = Ok false.
Proof.
  induction row as [|a row IH]; intros Hzero x; [reflexivity|]. simpl.
  unfold collide_cell. rewrite (Hzero 0%nat a eq_refl). simpl.
  apply IH. intros i cell Hlk. exact (Hzero (S i) cell Hlk).
Qed.

Lemma collide_rows_empty (shape : list (list Z)) :
  (forall (i j : nat) (cell : Z), shape_cell shape i j cell -> cell = 0) ->
  forall y, collide_rows board off_x off_y y shape = Ok false.
Proof.
  induction shape as [|a shape IH]; intros Hzero y; [reflexivity|]. simpl.
  rewrite collide_row_empty.
  - simpl. apply IH. intros i j cell (row & Hrow & Hlk).
    apply (Hzero i (S j) cell). exists row. split; assumption.
  - intros i cell Hlk. apply (Hzero i 0%nat cell). exists a.
    split; [reflexivity|assumption].
Qed.

End Floor.

Lemma collide_floor (board shape : list (list Z)) (off_x off_y : Z)
  (i j : nat) (cell : Z) :
  shape_cell shape i j cell -> cell <> 0 ->
  off_y + Z.of_nat j >= TOTAL_ROWS ->
  collide board shape (off_x, off_y) <> Ok false.
Proof.
  intros (row & Hrow & Hlk) Hc Hy. unfold collide.
  apply (collide_rows_floor board off_x off_y shape j i row cell 0);
    assumption.
Qed.

Lemma collide_empty (board shape : list (list Z)) (offset : Z * Z) :
  (forall (i j : nat) (cell : Z), shape_cell shape i j cell -> cell = 0) ->
  collide board shape offset = Ok false.
Proof.
  intros Hzero. destruct offset as [off_x off_y]. unfold collide.
  apply collide_rows_empty. assumption.
Qed.

Section HardDrop.
Import Tetris.

Lemma hard_drop_loop_ends (i j : nat) (cell : Z) (n : nat) : forall g,
  shape_cell (current_shape g) i j cell -> cell <> 0 ->
  TOTAL_ROWS - (y g + 1 + Z.of_nat j) <= Z.of_nat n ->
  exists res, hard_drop_loop (S n) g = Some res.
Proof.
  induction n as [|n IH]; intros g Hcell Hc Hn.
  - pose proof (collide_floor (board g) (current_shape g) (x g) (y g + 1)
                  i j cell Hcell Hc) as Hfloor.
    simpl.
    destruct (collide (board g) (current_shape g) (x g, y g + 1)) as [[|]|];
      [eexists; reflexivity| |eexists; reflexivity].
    exfalso. apply Hfloor; [lia|reflexivity].
  - change (hard_drop_loop (S (S n)) g)
      with (match collide (board g) (current_shape g) (x g, y g + 1) with
            | IndexError => Some IndexError
            | Ok c => if negb c then hard_drop_loop (S n) (set_y g (y g + 1))
                      else Some (Ok g)
            end).
    destruct (collide (board g) (current_shape g) (x g, y g + 1)) as [[|]|];
      [eexists; reflexivity| |eexists; reflexivity].
    apply IH; [exact Hcell|exact Hc|].
    change (y (set_y g (y g + 1))) with (y g + 1). lia.
Qed.

Lemma hard_drop_loop_more_fuel (n : nat) : forall g res,
  hard_drop_loop n g = Some res ->
  forall m, (n <= m)%nat -> hard_drop_loop m g = Some res.
Proof.
  induction n as [|n IH]; intros g res Hn m Hm; [discriminate|].
  destruct m as [|m]; [lia|]. simpl in Hn |- *.
  destruct (collide (board g) (current_shape g) (x g, y g + 1)) as [[|]|];
    try assumption.
  apply (IH _ _ Hn). lia.
Qed.

Lemma hard_drop_loop_no_block (n : nat) : forall g,
  (forall (i j : nat) (cell : Z),
     shape_cell (current_shape g) i j cell -> cell = 0) ->
  hard_drop_loop n g = None.
Proof.
  induction n as [|n IH]; intros g Hzero; [reflexivity|]. simpl.
  rewrite collide_empty by assumption. simpl. apply IH. exact Hzero.
Qed.

Lemma hard_drop_loop_total (g : state) :
  has_block (current_shape g) ->
  exists res, forall fuel, (drop_fuel g <= fuel)%nat ->
    hard_drop_loop fuel g = Some res.
Proof.
  intros (i & j & cell & Hcell & Hc).
  destruct (hard_drop_loop_ends i j cell (Z.to_nat (TOTAL_ROWS - y g)) g Hcell Hc)
    as (res & Hres); [lia|].
  exists res. intros fuel Hfuel.
  exact (hard_drop_loop_more_fuel _ g res Hres fuel Hfuel).
Qed.

(** C10: for every board, position and shape with a nonzero cell, the loop
    of [hard_drop] ends: with fuel [TOTAL_ROWS - y + 1] or more,
    [hard_drop] gives one and the same outcome.  For a shape without a
    nonzero cell no amount of fuel is enough: the loop never ends. *)
Theorem hard_drop_terminates (r : piece) (g : state) :
  (has_block (current_shape g) ->
   exists res, forall fuel, (drop_fuel g <= fuel)%nat ->
     hard_drop fuel r g = Some res) /\
  ((forall (i j : nat) (cell : Z),
      shape_cell (current_shape g) i j cell -> cell = 0) ->
   forall fuel, hard_drop fuel r g = None).
Proof.
  split.
  - intros Hblock. destruct (hard_drop_loop_total g Hblock) as (res & Hres).
    exists (g' ← res; lock_piece r g'). intros fuel Hfuel.
    unfold hard_drop. rewrite (Hres fuel Hfuel). reflexivity.
  - intros Hzero fuel. unfold hard_drop.
    rewrite hard_drop_loop_no_block by assumption. reflexivity.
Qed.

End HardDrop.

Lemma has_block_b_spec (shape : list (list Z)) :
  has_block_b shape = true <-> has_block shape.
Proof.
  unfold has_block_b, has_block, shape_cell. rewrite existsb_exists. split.
  - intros (row & Hrow & Hex). apply existsb_exists in Hex as (cell & Hcell & Hc).
    apply list_elem_of_In, list_elem_of_lookup in Hrow as (j & Hj).
    apply list_elem_of_In, list_elem_of_lookup in Hcell as (i & Hi).
    exists i, j, cell. split; [exists row; split; assumption|].
    apply truthy_true. assumption.
  - intros (i & j & cell & (row & Hj & Hi) & Hc). exists row. split.
    + apply list_elem_of_In, list_elem_of_lookup. exists j. assumption.
    + apply existsb_exists. exists cell. split.
      * apply list_elem_of_In, list_elem_of_lookup. exists i. assumption.
      * apply truthy_true. assumption.
Qed.

Lemma no_block_b_spec (shape : list (list Z)) :
  has_block_b shape = false ->
  forall (i j : nat) (cell : Z), shape_cell shape i j cell -> cell = 0.
Proof.
  intros Hb i j cell Hcell. destruct (Z.eq_dec cell 0) as [|Hc]; [assumption|].
  assert (has_block_b shape = true) as Habs; [|congruence].
  apply has_block_b_spec. exists i, j, cell. split; assumption.
Qed.

Lemma catalog_shape_has_block (shape : list (list Z)) :
  catalog_shape shape -> has_block shape.
Proof.
  intros [k Hin]. apply has_block_b_spec. unfold orientations in Hin.
  simpl in Hin. destruct Hin as [<-|[<-|[<-|[<-|[]]]]]; destruct k; reflexivity.
Qed.

Section HardDropClaims.
Import Tetris.

Lemma hard_drop_terminates_witness :
  let empty := set_current_shape three_rows_state [[0; 0]; [0; 0]] in
  (has_block (current_shape three_rows_state) /\
   (forall (i j : nat) (cell : Z),
      shape_cell (current_shape empty) i j cell -> cell = 0)) /\
  (exists res, forall fuel, (drop_fuel three_rows_state <= fuel)%nat ->
     hard_drop fuel key_T three_rows_state = Some res) /\
  (forall fuel, hard_drop fuel key_T empty = None).
Proof.
  intros empty.
  assert (Hblock : has_block (current_shape three_rows_state))
    by (apply has_block_b_spec; reflexivity).
  assert (Hzero : forall (i j : nat) (cell : Z),
             shape_cell (current_shape empty) i j cell -> cell = 0)
    by (apply no_block_b_spec; reflexivity).
  split; [split; assumption|]. split.
  - exact (proj1 (hard_drop_terminates key_T three_rows_state) Hblock).
  - exact (proj2 (hard_drop_terminates key_T empty) Hzero).
Defined.

(** ** Hard drop and soft drops *)

Lemma hard_drop_soft_drops (r : piece) (fuel : nat) : forall g,
  hard_drop fuel r g = soft_drop_until_locked fuel r g.
Proof.
  induction fuel as [|fuel IH]; intros g; [reflexivity|].
  specialize (IH (set_y g (y g + 1))).
  unfold hard_drop in *. simpl. unfold soft_drop.
  destruct (collide (board g) (current_shape g) (x g, y g + 1)) as [[|]|]; simpl.
  - destruct (lock_piece r g); reflexivity.
  - exact IH.
  - reflexivity.
Qed.

Lemma set_y_same (g : state) : set_y g (y g) = g.
Proof. destruct g. reflexivity. Qed.

(** Where the loop of [hard_drop] leaves the piece. *)
Lemma hard_drop_loop_landing (fuel : nat) : forall g g1,
  hard_drop_loop fuel g = Some (Ok g1) ->
  g1 = set_y g (y g1) /\ y g <= y g1 /\
  (forall y', y g < y' <= y g1 ->
     collide (board g) (current_shape g) (x g, y') = Ok false) /\
  collide (board g) (current_shape g) (x g, y g1 + 1) = Ok true.
Proof.
  induction fuel as [|fuel IH]; intros g g1 Hloop; [discriminate|].
  simpl in Hloop.
  destruct (collide (board g) (current_shape g) (x g, y g + 1)) as [[|]|] eqn:Hc;
    simpl in Hloop; [| |discriminate].
  - injection Hloop as <-. rewrite set_y_same.
    split; [reflexivity|]. split; [lia|]. split; [intros; lia|assumption].
  - destruct (IH _ _ Hloop) as (Hg1 & Hle & Hfree & Hstop).
    change (y (set_y g (y g + 1))) with (y g + 1) in *.
    change (board (set_y g (y g + 1))) with (board g) in *.
    change (current_shape (set_y g (y g + 1))) with (current_shape g) in *.
    change (x (set_y g (y g + 1))) with (x g) in *.
    split; [exact Hg1|]. split; [lia|]. split; [|assumption].
    intros y' Hy'. destruct (Z.eq_dec y' (y g + 1)) as [->|Hne];
      [assumption|apply Hfree; lia].
Qed.

Lemma hard_drop_loop_wf (fuel : nat) : forall g res,
  board_wf (board g) -> hard_drop_loop fuel g = Some res ->
  exists g1, res = Ok g1.
Proof.
  induction fuel as [|fuel IH]; intros g res Hwf Hloop; [discriminate|].
  simpl in Hloop.
  destruct (collide_wf (board g) Hwf (x g) (y g + 1) (current_shape g))
    as (c & Hc & _).
  rewrite Hc in Hloop. destruct c; simpl in Hloop.
  - injection Hloop as <-. eexists. reflexivity.
  - apply (IH (set_y g (y g + 1)) res); [exact Hwf|exact Hloop].
Qed.

Lemma lock_piece_wf_ok (r : piece) (g : state) :
  board_wf (board g) -> exists g', lock_piece r g = Ok g'.
Proof.
  intros Hwf. destruct (lock_piece_wf r g Hwf) as (b & _ & Hwfb & ->).
  apply spawn_new_wf_ok. rewrite (proj1 (lock_scoring_frame _ _)). simpl.
  exact (proj1 (clear_lines_wf b Hwfb)).
Qed.

(** In the hollow game the [O] over the flat [I] comes to rest in rows 17
    and 18, yet it would not collide in rows 22 and 23, inside the hollow:
    the hard drop does not leave it at the greatest free row. *)
Lemma hard_drop_stops_above_hollow :
  exists g g1,
    play 30 0 0 key_I key_I hollow_game = Some (Ok g) /\
    reachable g /\ game_over g = false /\
    hard_drop_loop 30 g = Some (Ok g1) /\ y g1 = 17 /\
    collide (board g) (current_shape g) (x g, 22) = Ok false.
Proof.
  eexists _, _. split; [vm_compute; reflexivity|].
  split; [apply (reachable_play 30 0 0 key_I key_I hollow_game);
          vm_compute; reflexivity|].
  split; [reflexivity|].
  split; [vm_compute; reflexivity|]. split; reflexivity.
Qed.

(** C8, amended: in every reachable state a hard drop gives what
    repeated soft drops give, for every amount of fuel, and with
    enough fuel both end in the same state.  The piece is locked at the
    first row from which it cannot go one further down: its shape is free
    at every row from [y + 1] to that row and collides one row below. *)
Theorem hard_drop_is_repeated_soft_drop (r : piece) (g : state) :
  reachable g ->
  (forall fuel, hard_drop fuel r g = soft_drop_until_locked fuel r g) /\
  exists fuel g1 g',
    hard_drop_loop fuel g = Some (Ok g1) /\
    g1 = set_y g (y g1) /\ y g <= y g1 /\
    (forall y', y g < y' <= y g1 ->
       collide (board g) (current_shape g) (x g, y') = Ok false) /\
    collide (board g) (current_shape g) (x g, y g1 + 1) = Ok true /\
    lock_piece r g1 = Ok g' /\
    hard_drop fuel r g = Some (Ok g') /\
    soft_drop_until_locked fuel r g = Some (Ok g').
Proof.
  intros Hg. split; [intros fuel; apply hard_drop_soft_drops|].
  pose proof (reachable_board_wf g Hg) as Hwf.
  pose proof (catalog_shape_has_block _ (reachable_catalog_shape g Hg)) as Hblock.
  destruct (hard_drop_loop_total g Hblock) as (res & Hres).
  specialize (Hres (drop_fuel g) (Nat.le_refl _)).
  destruct (hard_drop_loop_wf _ g res Hwf Hres) as (g1 & ->).
  destruct (hard_drop_loop_landing _ g g1 Hres) as (Hg1 & Hle & Hfree & Hstop).
  destruct (lock_piece_wf_ok r g1) as (g' & Hlock).
  { rewrite Hg1. exact Hwf. }
  assert (Hhard : hard_drop (drop_fuel g) r g = Some (Ok g')).
  { unfold hard_drop. rewrite Hres. simpl. rewrite Hlock. reflexivity. }
  exists (drop_fuel g), g1, g'. repeat (split; [assumption|]).
  rewrite <- hard_drop_soft_drops. exact Hhard.
Qed.

Lemma hard_drop_is_repeated_soft_drop_witness :
  exists g, play 30 0 0 key_I key_I hollow_game = Some (Ok g) /\
    reachable g /\
    ((forall fuel, hard_drop fuel key_S g = soft_drop_until_locked fuel key_S g) /\
     exists fuel g1 g',
       hard_drop_loop fuel g = Some (Ok g1) /\
       g1 = set_y g (y g1) /\ y g <= y g1 /\
       (forall y', y g < y' <= y g1 ->
          collide (board g) (current_shape g) (x g, y') = Ok false) /\
       collide (board g) (current_shape g) (x g, y g1 + 1) = Ok true /\
       lock_piece key_S g1 = Ok g' /\
       hard_drop fuel key_S g = Some (Ok g') /\
       soft_drop_until_locked fuel key_S g = Some (Ok g')).
Proof.
  eexists. split; [vm_compute; reflexivity|].
  assert (Hg : forall g, play 30 0 0 key_I key_I hollow_game = Some (Ok g) ->
                         reachable g)
    by exact (reachable_play 30 0 0 key_I key_I hollow_game).
  match goal with
  | |- reachable ?g /\ _ =>
      assert (Hreach : reachable g) by (apply Hg; vm_compute; reflexivity)
  end.
  split; [exact Hreach|].
  apply hard_drop_is_repeated_soft_drop. exact Hreach.
Defined.

End HardDropClaims.

(** ** No exception, no endless loop in a reachable state *)

Section Progress.
Import Tetris.

Lemma init_total (hl hn : Z) (r1 r2 : piece) :
  exists g, init hl hn r1 r2 = Ok g /\ game_over g = false /\
    board g = new_board /\ current_shape g = SHAPES r1 /\
    y g = spawn_row (SHAPES r1).
Proof.
  unfold init. destruct r1; eexists; (split; [vm_compute; reflexivity|]);
    repeat split; reflexivity.
Qed.

Lemma soft_drop_total (r : piece) (g : state) :
  board_wf (board g) -> exists gb, soft_drop r g = Ok gb.
Proof.
  intros Hwf. unfold soft_drop.
  destruct (collide_wf (board g) Hwf (x g) (y g + 1) (current_shape g))
    as (c & -> & _).
  rewrite bind_Ok. destruct c; simpl.
  - destruct (lock_piece_wf_ok r g Hwf) as (g' & ->). eexists. reflexivity.
  - eexists. reflexivity.
Qed.

Lemma move_total (dx : Z) (g : state) :
  board_wf (board g) -> exists g', move dx g = Ok g'.
Proof.
  intros Hwf. unfold move.
  destruct (collide_wf (board g) Hwf (x g + dx) (y g) (current_shape g))
    as (c & -> & _).
  rewrite bind_Ok. destruct c; eexists; reflexivity.
Qed.

Lemma rotate_piece_total (g : state) :
  board_wf (board g) -> exists g', rotate_piece g = Ok g'.
Proof.
  intros Hwf. unfold rotate_piece.
  destruct (collide_wf (board g) Hwf (x g) (y g) (rotate (current_shape g)))
    as (c & -> & _).
  rewrite bind_Ok. destruct c; eexists; reflexivity.
Qed.

Lemma hard_drop_total (r : piece) (g : state) :
  board_wf (board g) -> has_block (current_shape g) ->
  exists g', hard_drop (drop_fuel g) r g = Some (Ok g').
Proof.
  intros Hwf Hblock.
  destruct (hard_drop_loop_total g Hblock) as (res & Hres).
  specialize (Hres (drop_fuel g) (Nat.le_refl _)).
  destruct (hard_drop_loop_wf _ g res Hwf Hres) as (g1 & ->).
  destruct (hard_drop_loop_landing _ g g1 Hres) as (Hg1 & _).
  destruct (lock_piece_wf_ok r g1) as (g' & Hlock).
  { rewrite Hg1. exact Hwf. }
  exists g'. unfold hard_drop. rewrite Hres. simpl. rewrite Hlock. reflexivity.
Qed.

(** Every event of the main loop takes a reachable state to a next state:
    no [IndexError] is raised and the loop of [hard_drop] ends. *)
Lemma reachable_total (ev : event) (r : piece) (g : state) :
  reachable g ->
  exists g', handle_event (drop_fuel g) ev r g = Some (Ok g').
Proof.
  intros Hg. pose proof (reachable_board_wf g Hg) as Hwf.
  pose proof (catalog_shape_has_block _ (reachable_catalog_shape g Hg)) as Hblock.
  assert (Hdrop : exists g', (gb ← soft_drop r g; Ok (fst gb)) = Ok g').
  { destruct (soft_drop_total r g Hwf) as (gb & ->). eexists. reflexivity. }
  destruct ev; simpl.
  - destruct (negb (paused g) && negb (game_over g)) eqn:Hrun;
      [|eexists; reflexivity].
    unfold update. destruct (game_over g || paused g); [eexists; reflexivity|].
    destruct Hdrop as (g' & ->). eexists. reflexivity.
  - eexists. reflexivity.
  - eexists. reflexivity.
  - destruct (spawn_new_wf_ok r (reset_fields g)) as (g' & Hnew);
      [exact new_board_wf|].
    exists g'. unfold reset_fields in Hnew. rewrite Hnew. reflexivity.
  - eexists. reflexivity.
  - destruct (negb (game_over g) && negb (paused g)); [|eexists; reflexivity].
    destruct (move_total (-1) g Hwf) as (g' & ->). eexists. reflexivity.
  - destruct (negb (game_over g) && negb (paused g)); [|eexists; reflexivity].
    destruct (move_total 1 g Hwf) as (g' & ->). eexists. reflexivity.
  - destruct (negb (game_over g) && negb (paused g)); [|eexists; reflexivity].
    destruct (rotate_piece_total g Hwf) as (g' & ->). eexists. reflexivity.
  - destruct (negb (game_over g) && negb (paused g)); [|eexists; reflexivity].
    destruct Hdrop as (g' & ->). eexists. reflexivity.
  - destruct (negb (game_over g) && negb (paused g)); [|eexists; reflexivity].
    exact (hard_drop_total r g Hwf Hblock).
  - destruct (negb (game_over g) && negb (paused g)); eexists; reflexivity.
Qed.

End Progress.

(** ** Worked examples *)

Example spawn_order_width_4 :
  Tetris.find_spawn_x_order 4 = [3; 2; 4; 1; 5; 0; 6].
Proof. reflexivity. Qed.

Example spawn_order_width_2 :
  Tetris.find_spawn_x_order 2 = [4; 3; 5; 2; 6; 1; 7; 0; 8].
Proof. reflexivity. Qed.

Example rotate_I :
  rotate (SHAPES key_I)
  = [[0; 0; 1; 0]; [0; 0; 1; 0]; [0; 0; 1; 0]; [0; 0; 1; 0]].
Proof. reflexivity. Qed.

Example clear_two_full_rows :
  snd (clear_lines two_full_rows) = 2 /\
  fst (clear_lines two_full_rows)
  = replicate 2 (replicate 10 0)
    ++ List.filter (fun row => negb (forallb truthy row)) two_full_rows.
Proof. split; reflexivity. Qed.

Example three_rows_at_level_two :
  exists g', Tetris.lock_piece key_T three_rows_state = Ok g' /\
    Tetris.score g' = 2100 /\ Tetris.lines g' = 15 /\ Tetris.level g' = 2 /\
    Tetris.saved g' = [(2, 15)].
Proof.
  eexists. split; [vm_compute; reflexivity|]. repeat split; reflexivity.
Qed.

Example lost_game_is_over :
  exists g, play 30 0 0 key_I key_I lost_game = Some (Ok g) /\
    Tetris.game_over g = true /\ Tetris.saved g = [(1, 0)].
Proof.
  eexists. split; [vm_compute; reflexivity|]. split; reflexivity.
Qed.

(** * Further properties of the engine *)

(** ** Events as steps *)

Section Steps.
Import Tetris.

Lemma soft_drop_step (r : piece) (g g' : state) (falling : bool) :
  running g -> soft_drop r g = Ok (g', falling) -> step r g g'.
Proof.
  intros Hrun H. unfold soft_drop in H.
  apply bind_Ok_inv in H as (c & Hc & H). destruct c; simpl in H.
  - apply bind_Ok_inv in H as (g1 & Hlock & H). injection H as <- _.
    apply (step_lock r g (y g) g1); try assumption; try lia.
  - injection H as <- _. apply step_fall; assumption.
Qed.

Lemma guard_running (g : state) :
  negb (game_over g) && negb (paused g) = true -> running g.
Proof.
  unfold running. destruct (game_over g), (paused g); try discriminate.
  split; reflexivity.
Qed.

(** Every event of the main loop is one of the steps. *)
Lemma handle_event_step (fuel : nat) (ev : event) (r : piece) (g g' : state) :
  handle_event fuel ev r g = Some (Ok g') -> step r g g'.
Proof.
  intros H.
  assert (Hdrop : running g ->
            forall h, (gb ← soft_drop r g; Ok (fst gb)) = Ok h -> step r g h).
  { intros Hrun h Hh. apply bind_Ok_inv in Hh as ([g1 fl] & Hsd & Hh).
    injection Hh as <-. exact (soft_drop_step r g g1 fl Hrun Hsd). }
  destruct ev; simpl in H.
  - destruct (negb (paused g) && negb (game_over g)) eqn:Hrun.
    + injection H as H. unfold update in H.
      rewrite andb_comm in Hrun. apply guard_running in Hrun. destruct Hrun as [Ho Hp].
      rewrite Ho, Hp in H. simpl in H. apply Hdrop; [split|]; assumption.
    + injection H as <-. apply step_none.
  - injection H as <-. apply step_none.
  - injection H as <-. apply step_save.
  - injection H as H. apply step_reset. exact H.
  - injection H as <-. apply step_pause.
  - destruct (negb (game_over g) && negb (paused g)) eqn:Hrun;
      [|injection H as <-; apply step_none].
    injection H as H. unfold move in H.
    apply bind_Ok_inv in H as (c & Hc & H).
    destruct c; injection H as <-; [apply step_none|].
    apply (step_move r g (-1)); [apply guard_running|]; assumption.
  - destruct (negb (game_over g) && negb (paused g)) eqn:Hrun;
      [|injection H as <-; apply step_none].
    injection H as H. unfold move in H.
    apply bind_Ok_inv in H as (c & Hc & H).
    destruct c; injection H as <-; [apply step_none|].
    apply (step_move r g 1); [apply guard_running|]; assumption.
  - destruct (negb (game_over g) && negb (paused g)) eqn:Hrun;
      [|injection H as <-; apply step_none].
    injection H as H. unfold rotate_piece in H.
    apply bind_Ok_inv in H as (c & Hc & H).
    destruct c; injection H as <-; [apply step_none|].
    apply step_rotate; [apply guard_running|]; assumption.
  - destruct (negb (game_over g) && negb (paused g)) eqn:Hrun;
      [|injection H as <-; apply step_none].
    injection H as H. apply Hdrop; [apply guard_running|]; assumption.
  - destruct (negb (game_over g) && negb (paused g)) eqn:Hrun;
      [|injection H as <-; apply step_none].
    unfold hard_drop in H.
    destruct (hard_drop_loop fuel g) as [[g1|]|] eqn:Hloop; try discriminate.
    injection H as H. change (lock_piece r g1 = Ok g') in H.
    destruct (hard_drop_loop_landing fuel g g1 Hloop) as (Hg1 & Hle & Hfree & Hstop).
    apply (step_lock r g (y g1) g'); try assumption.
    + apply guard_running. assumption.
    + rewrite <- Hg1. assumption.
  - destruct (negb (game_over g) && negb (paused g));
      injection H as <-; apply step_none.
Qed.

(** An invariant of the steps holds in every reachable state. *)
Lemma reachable_by_steps (Inv : state -> Prop) :
  (forall hl hn r1 r2 g, init hl hn r1 r2 = Ok g -> Inv g) ->
  (forall r g g', reachable g -> Inv g -> step r g g' -> Inv g') ->
  forall g, reachable g -> Inv g.
Proof.
  intros Hinit Hstep g Hg.
  induction Hg as [hl hn r1 r2 g Hi|fuel ev r g g' Hg IH Hev].
  - exact (Hinit hl hn r1 r2 g Hi).
  - apply (Hstep r g g' Hg IH). exact (handle_event_step fuel ev r g g' Hev).
Qed.

End Steps.

(** ** Where the active piece is *)

Section Placement.
Import Tetris.

Lemma spawn_new_result (r : piece) (g g' : state) :
  board_wf (board g) -> spawn_new r g = Ok g' ->
  (exists c, In c (find_spawn_x_order (shape_width (SHAPES (next_type g)))) /\
     collide (board g) (SHAPES (next_type g))
       (c, spawn_row (SHAPES (next_type g))) = Ok false /\
     g' = set_y (set_x (spawn_entry r g) c) (spawn_row (SHAPES (next_type g))))
  \/ ((forall c, In c (find_spawn_x_order (shape_width (SHAPES (next_type g)))) ->
         collide (board g) (SHAPES (next_type g))
           (c, spawn_row (SHAPES (next_type g))) = Ok true) /\
      g' = spawn_failed (spawn_entry r g)).
Proof.
  intros Hwf Hnew.
  destruct (spawn_new_cases r g Hwf)
    as [(c & pre & post & Hsplit & _ & Hfree & Hnew')|[Hnone Hnew']];
    rewrite Hnew' in Hnew; injection Hnew as <-.
  - left. exists c. split; [|split; [assumption|reflexivity]].
    rewrite Hsplit. apply in_or_app. right. left. reflexivity.
  - right. split; [assumption|reflexivity].
Qed.

Lemma lock_piece_result (r : piece) (g g' : state) :
  board_wf (board g) -> lock_piece r g = Ok g' ->
  exists b, merge (current_shape g) (board g) (x g, y g) = Ok b /\
    board_wf b /\
    spawn_new r (lock_scoring (snd (clear_lines b))
                   (set_board g (fst (clear_lines b)))) = Ok g'.
Proof.
  intros Hwf Hlock. destruct (lock_piece_wf r g Hwf) as (b & Hb & Hwfb & Heq).
  exists b. split; [assumption|]. split; [assumption|].
  rewrite <- Heq. assumption.
Qed.

Lemma spawn_failed_piece (g : state) :
  x (spawn_failed g) = x g /\ y (spawn_failed g) = y g /\
  current_type (spawn_failed g) = current_type g /\
  next_type (spawn_failed g) = next_type g.
Proof.
  destruct g. unfold spawn_failed. fields.
  destruct (_ >? _), (_ >? _); repeat split; reflexivity.
Qed.

Lemma lock_scoring_piece (c : Z) (g : state) :
  x (lock_scoring c g) = x g /\ y (lock_scoring c g) = y g /\
  current_shape (lock_scoring c g) = current_shape g /\
  current_type (lock_scoring c g) = current_type g.
Proof.
  destruct g. unfold lock_scoring. fields.
  destruct (truthy c); [destruct (_ >? _), (_ >? _)|];
    repeat split; reflexivity.
Qed.

(** The state a lock hands to [spawn_new] has a well-formed board. *)
Lemma lock_scoring_board_wf (b : list (list Z)) (g : state) :
  board_wf b ->
  board_wf (board (lock_scoring (snd (clear_lines b))
                     (set_board g (fst (clear_lines b))))).
Proof.
  intros Hwfb. rewrite (proj1 (lock_scoring_frame _ _)).
  exact (proj1 (clear_lines_wf b Hwfb)).
Qed.

Lemma spawn_new_placed (r : piece) (g g' : state) :
  board_wf (board g) -> 0 <= y g -> spawn_new r g = Ok g' -> placed g'.
Proof.
  intros Hwf Hy Hnew.
  destruct (spawn_new_result r g g' Hwf Hnew)
    as [(c & _ & Hfree & ->)|[_ ->]]; unfold placed.
  - split; [|intros _; exact Hfree].
    change (0 <= spawn_row (SHAPES (next_type g))). unfold spawn_row. lia.
  - destruct (spawn_failed_frame (spawn_entry r g)) as (_ & _ & _ & _ & _ & _ & Hover).
    destruct (spawn_failed_piece (spawn_entry r g)) as (_ & -> & _).
    split; [exact Hy|]. rewrite Hover. discriminate.
Qed.

Lemma reachable_placed (g : state) : reachable g -> placed g.
Proof.
  apply reachable_by_steps.
  - intros hl hn r1 r2 g0 Hinit.
    apply (spawn_new_placed r2 (blank hl hn r1)); [exact new_board_wf| |exact Hinit].
    simpl. lia.
  - intros r g0 g' Hreach [Hy Hfree] Hstep.
    pose proof (reachable_board_wf g0 Hreach) as Hwf.
    destruct Hstep as [| | |g' Hnew|dx [Hover _] Hc|[Hover _] Hc|[Hover _] Hc
                       |y1 g' [Hover _] Hle _ _ Hlock].
    + split; assumption.
    + split; assumption.
    + split; assumption.
    + apply (spawn_new_placed r (reset_fields g0)); [exact new_board_wf| |exact Hnew].
      exact Hy.
    + split; [exact Hy|]. intros _. exact Hc.
    + split; [exact Hy|]. intros _. exact Hc.
    + split; [|intros _; exact Hc]. change (0 <= y g0 + 1). lia.
    + destruct (lock_piece_result r (set_y g0 y1) g' Hwf Hlock)
        as (b & _ & Hwfb & Hnew).
      refine (spawn_new_placed r _ g' (lock_scoring_board_wf b _ Hwfb) _ Hnew).
      rewrite (proj1 (proj2 (lock_scoring_piece _ _))).
      change (0 <= y1). lia.
Qed.

Lemma board_cell_wf (board : list (list Z)) (bx by_ : Z) :
  board_wf board -> 0 <= bx < COLS -> 0 <= by_ < TOTAL_ROWS ->
  exists brow c, getitem board by_ = Ok brow /\ getitem brow bx = Ok c /\
    board_cell board bx by_ = Some c.
Proof.
  intros Hwf Hx Hy.
  destruct (board_wf_row board by_ Hwf Hy) as (brow & Hget & Hlk & Hlen).
  destruct (getitem_inside brow bx) as (c & Hgc & Hlc); [lia|].
  exists brow, c. split; [assumption|]. split; [assumption|].
  unfold board_cell.
  destruct (Z.ltb_spec bx 0); [lia|]. destruct (Z.ltb_spec by_ 0); [lia|].
  simpl. rewrite Hlk. simpl. exact Hlc.
Qed.

(** X1: in every reachable state in which the game is not over, each
    block of the active piece lies inside the grid, in a row [>= 0], on an
    empty cell of the board. *)
Theorem active_piece_inside_grid (g : state) (i j : nat) (cell : Z) :
  reachable g -> game_over g = false ->
  shape_cell (current_shape g) i j cell -> cell <> 0 ->
  0 <= x g + Z.of_nat i < COLS /\
  0 <= y g + Z.of_nat j < TOTAL_ROWS /\
  board_cell (board g) (x g + Z.of_nat i) (y g + Z.of_nat j) = Some 0.
Proof.
  intros Hreach Hover Hcell Hnz.
  pose proof (reachable_board_wf g Hreach) as Hwf.
  destruct (reachable_placed g Hreach) as [Hy Hfree]. specialize (Hfree Hover).
  destruct (collide_wf (board g) Hwf (x g) (y g) (current_shape g))
    as (b & Hb & Hspec).
  rewrite Hfree in Hb. injection Hb as <-.
  assert (Hfreecell : ~ blocked (board g) (x g + Z.of_nat i) (y g + Z.of_nat j)).
  { intros Hbl. assert (false = true) as Habs; [|discriminate].
    apply Hspec. exists i, j, cell. repeat split; assumption. }
  unfold blocked in Hfreecell.
  assert (Hx : 0 <= x g + Z.of_nat i < COLS) by lia.
  assert (Hrow : 0 <= y g + Z.of_nat j < TOTAL_ROWS) by lia.
  split; [exact Hx|]. split; [exact Hrow|].
  destruct (board_cell_wf (board g) _ _ Hwf Hx Hrow) as (brow & c & Hg1 & Hg2 & ->).
  destruct (Z.eq_dec c 0) as [->|Hc]; [reflexivity|].
  exfalso. apply Hfreecell. right; right; right. split; [lia|].
  exists brow, c. repeat split; assumption.
Qed.

Lemma active_piece_inside_grid_witness :
  exists g, play 30 0 0 key_I key_I hollow_game = Some (Ok g) /\
    (reachable g /\ game_over g = false /\
     shape_cell (current_shape g) 1 1 4 /\ 4 <> 0) /\
    0 <= x g + Z.of_nat 1 < COLS /\
    0 <= y g + Z.of_nat 1 < TOTAL_ROWS /\
    board_cell (board g) (x g + Z.of_nat 1) (y g + Z.of_nat 1) = Some 0.
Proof.
  eexists. split; [vm_compute; reflexivity|].
  match goal with
  | |- (reachable ?g /\ _) /\ _ =>
      assert (Hg : reachable g)
        by (apply (reachable_play 30 0 0 key_I key_I hollow_game);
            vm_compute; reflexivity)
  end.
  assert (Hcell : shape_cell (SHAPES key_O) 1 1 4)
    by (exists [4; 4]; split; reflexivity).
  split; [split; [exact Hg|split; [reflexivity|split; [exact Hcell|discriminate]]]|].
  apply (active_piece_inside_grid _ 1 1 4 Hg); [reflexivity|exact Hcell|discriminate].
Defined.

End Placement.

(** ** When the game is over *)

Section GameOver.
Import Tetris.

Lemma catalog_cell_bounds (k : piece) (i j : nat) (cell : Z) :
  shape_cell (SHAPES k) i j cell ->
  0 <= Z.of_nat i < 4 /\
  0 <= spawn_row (SHAPES k) + Z.of_nat j < HIDDEN_ROWS.
Proof.
  intros (row & Hrow & Hi).
  pose proof (lookup_lt_Some _ _ _ Hrow) as Hj.
  destruct k; simpl in Hj;
    (destruct j as [|[|[|[|j]]]]; simpl in Hj; try lia);
    simpl in Hrow; injection Hrow as <-;
    pose proof (lookup_lt_Some _ _ _ Hi) as Hlen; simpl in Hlen;
    (split; [lia|]); unfold spawn_row, shape_height, HIDDEN_ROWS, len;
    simpl; lia.
Qed.

Lemma catalog_width (k : piece) : 0 <= shape_width (SHAPES k) <= 4.
Proof. destruct k; vm_compute; split; intros H; discriminate H. Qed.

Lemma failed_spawn_hidden_block (board : list (list Z)) (k : piece) :
  board_wf board ->
  (forall c, In c (find_spawn_x_order (shape_width (SHAPES k))) ->
     collide board (SHAPES k) (c, spawn_row (SHAPES k)) = Ok true) ->
  hidden_block board.
Proof.
  intros Hwf Hall.
  assert (Hzero : In 0 (find_spawn_x_order (shape_width (SHAPES k)))).
  { pose proof (catalog_width k) as Hw.
    apply (proj2 (In_find_spawn_x_order (shape_width (SHAPES k)) 0 (proj1 Hw))).
    unfold COLS. lia. }
  specialize (Hall 0 Hzero).
  destruct (collide_wf board Hwf 0 (spawn_row (SHAPES k)) (SHAPES k))
    as (b & Hb & Hspec).
  rewrite Hall in Hb. injection Hb as <-.
  destruct (proj1 Hspec eq_refl) as (i & j & cell & Hcell & Hnz & Hbl).
  destruct (catalog_cell_bounds k i j cell Hcell) as [Hi Hj].
  unfold blocked, COLS, TOTAL_ROWS, VISIBLE_ROWS, HIDDEN_ROWS in *.
  destruct Hbl as [?|[?|[?|[_ (brow & c & Hg1 & Hg2 & Hc)]]]]; try lia.
  destruct (board_cell_wf board (0 + Z.of_nat i) (spawn_row (SHAPES k) + Z.of_nat j) Hwf)
    as (brow' & c' & Hg1' & Hg2' & Hbc);
    [unfold COLS; lia|unfold TOTAL_ROWS, VISIBLE_ROWS, HIDDEN_ROWS; lia|].
  rewrite Hg1 in Hg1'. injection Hg1' as <-.
  rewrite Hg2 in Hg2'. injection Hg2' as <-.
  exists (0 + Z.of_nat i), (spawn_row (SHAPES k) + Z.of_nat j), c.
  unfold COLS, HIDDEN_ROWS. repeat split; try lia; assumption.
Qed.

Lemma spawn_new_game_over (r : piece) (g g' : state) :
  board_wf (board g) -> game_over g = false -> spawn_new r g = Ok g' ->
  game_over g' = true -> hidden_block (board g').
Proof.
  intros Hwf Hover Hnew Hover'.
  destruct (spawn_new_result r g g' Hwf Hnew) as [(c & _ & _ & ->)|[Hall ->]].
  - change (game_over g = true) in Hover'. congruence.
  - rewrite (proj1 (spawn_failed_frame _)).
    exact (failed_spawn_hidden_block (board g) (next_type g) Hwf Hall).
Qed.

(** X2: in every reachable state in which the game is over, the board
    holds a block in one of the [HIDDEN_ROWS] rows above the visible area:
    the game is lost only once the stack has grown into the hidden rows. *)
Theorem game_over_stack_in_hidden_rows (g : state) :
  reachable g -> game_over g = true ->
  exists bx by_ c, 0 <= bx < COLS /\ 0 <= by_ < HIDDEN_ROWS /\
    board_cell (board g) bx by_ = Some c /\ c <> 0.
Proof.
  revert g. apply (reachable_by_steps
                     (fun g => game_over g = true -> hidden_block (board g))).
  - intros hl hn r1 r2 g Hinit Hover.
    destruct (init_total hl hn r1 r2) as (g0 & Hg0 & Hrun & _).
    rewrite Hg0 in Hinit. injection Hinit as <-. congruence.
  - intros r g g' Hreach IH Hstep.
    pose proof (reachable_board_wf g Hreach) as Hwf.
    destruct Hstep as [| | |g' Hnew|dx [Hover _] Hc|[Hover _] Hc|[Hover _] Hc
                       |y1 g' [Hover _] Hle _ _ Hlock].
    + exact IH.
    + exact IH.
    + exact IH.
    + intros Hover'. destruct (reset_total r g) as (g0 & Hg0 & Hrun & _).
      rewrite Hg0 in Hnew. injection Hnew as <-. congruence.
    + intros Hover'. change (game_over g = true) in Hover'. congruence.
    + intros Hover'. change (game_over g = true) in Hover'. congruence.
    + intros Hover'. change (game_over g = true) in Hover'. congruence.
    + destruct (lock_piece_result r (set_y g y1) g' Hwf Hlock)
        as (b & _ & Hwfb & Hnew).
      refine (spawn_new_game_over r _ g' (lock_scoring_board_wf b _ Hwfb) _ Hnew).
      rewrite (proj2 (proj2 (proj2 (lock_scoring_frame _ _)))). exact Hover.
Qed.

Lemma game_over_stack_in_hidden_rows_witness :
  exists g, play 30 0 0 key_I key_I lost_game = Some (Ok g) /\
    (reachable g /\ game_over g = true) /\
    exists bx by_ c, 0 <= bx < COLS /\ 0 <= by_ < HIDDEN_ROWS /\
      board_cell (board g) bx by_ = Some c /\ c <> 0.
Proof.
  eexists. split; [vm_compute; reflexivity|].
  match goal with
  | |- (reachable ?g /\ _) /\ _ =>
      assert (Hg : reachable g)
        by (apply (reachable_play 30 0 0 key_I key_I lost_game);
            vm_compute; reflexivity)
  end.
  split; [split; [exact Hg|reflexivity]|].
  apply (game_over_stack_in_hidden_rows _ Hg). reflexivity.
Defined.

End GameOver.

(** ** What the board holds *)

Section BoardContents.
Import Tetris.

Lemma all_cells_b_spec (f : Z -> bool) (P : Z -> Prop) (m : list (list Z)) :
  (forall c, f c = true -> P c) -> all_cells_b f m = true -> all_cells P m.
Proof.
  intros HfP Hm. unfold all_cells_b, all_cells in *.
  apply Forall_forall. intros row Hrow. apply Forall_forall. intros c Hc.
  apply list_elem_of_In in Hrow, Hc. apply HfP.
  pose proof (proj1 (forallb_forall _ _) Hm row Hrow) as Hr.
  exact (proj1 (forallb_forall _ _) Hr c Hc).
Qed.

Lemma getitem_elem_of {A : Type} (l : list A) (i : Z) (a : A) :
  getitem l i = Ok a -> a ∈ l.
Proof.
  unfold getitem. destruct (_ <? 0); [discriminate|].
  destruct (l !! _) as [a'|] eqn:Hlk; [|discriminate].
  intros H. injection H as <-. apply list_elem_of_lookup. eexists. exact Hlk.
Qed.

Lemma setitem_insert {A : Type} (l l' : list A) (i : Z) (v : A) :
  setitem l i v = Ok l' -> exists n : nat, l' = <[n := v]> l.
Proof.
  unfold setitem. destruct (_ || _); [discriminate|].
  intros H. injection H as <-. eexists. reflexivity.
Qed.

Section Cells.
Variable P : Z -> Prop.

Lemma merge_cell_all_cells (board board' : list (list Z))
  (off_x off_y x y cell : Z) :
  all_cells P board -> P cell ->
  merge_cell board off_x off_y x y cell = Ok board' -> all_cells P board'.
Proof.
  intros Hb Hc. unfold merge_cell.
  destruct (truthy cell); [|intros H; injection H as <-; assumption].
  destruct (_ && _); [|intros H; injection H as <-; assumption].
  intros H. apply bind_Ok_inv in H as (brow & Hrow & H).
  apply bind_Ok_inv in H as (brow' & Hset & H).
  apply setitem_insert in Hset as (n & ->).
  apply setitem_insert in H as (m & ->).
  apply Forall_insert; [assumption|].
  apply Forall_insert; [|assumption].
  exact (proj1 (Forall_forall _ _) Hb brow (getitem_elem_of _ _ _ Hrow)).
Qed.

Lemma merge_row_all_cells (off_x off_y y : Z) (row : list Z) :
  Forall P row -> forall (board board' : list (list Z)) (x : Z),
  all_cells P board ->
  merge_row board off_x off_y x y row = Ok board' -> all_cells P board'.
Proof.
  induction 1 as [|cell row Hc Hrow IH]; intros board board' x Hb H; simpl in H.
  - injection H as <-. assumption.
  - apply bind_Ok_inv in H as (b1 & Hb1 & H).
    apply (IH b1 board' (x + 1)); [|assumption].
    exact (merge_cell_all_cells board b1 off_x off_y x y cell Hb Hc Hb1).
Qed.

Lemma merge_rows_all_cells (off_x off_y : Z) (shape : list (list Z)) :
  all_cells P shape -> forall (board board' : list (list Z)) (y : Z),
  all_cells P board ->
  merge_rows board off_x off_y y shape = Ok board' -> all_cells P board'.
Proof.
  induction 1 as [|row shape Hrow Hshape IH]; intros board board' y Hb H;
    simpl in H.
  - injection H as <-. assumption.
  - apply bind_Ok_inv in H as (b1 & Hb1 & H).
    apply (IH b1 board' (y + 1)); [|assumption].
    exact (merge_row_all_cells off_x off_y y row Hrow board b1 0 Hb Hb1).
Qed.

Lemma merge_all_cells (shape board board' : list (list Z)) (offset : Z * Z) :
  all_cells P shape -> all_cells P board ->
  merge shape board offset = Ok board' -> all_cells P board'.
Proof.
  destruct offset as [off_x off_y]. intros Hs Hb H.
  exact (merge_rows_all_cells off_x off_y shape Hs board board' 0 Hb H).
Qed.

Lemma clear_lines_all_cells (board : list (list Z)) :
  P 0 -> all_cells P board -> all_cells P (fst (clear_lines board)).
Proof.
  intros H0 Hb. unfold clear_lines. cbn [fst].
  rewrite iter_insert_front. apply Forall_app. split.
  - apply Forall_replicate. apply Forall_replicate. exact H0.
  - apply Forall_forall. intros row Hrow.
    apply list_elem_of_In, filter_In in Hrow as [Hrow _].
    apply list_elem_of_In in Hrow.
    exact (proj1 (Forall_forall _ _) Hb row Hrow).
Qed.

End Cells.

Lemma clear_lines_no_full_row (board : list (list Z)) :
  Forall (fun row : list Z => 0 ∈ row) (fst (clear_lines board)).
Proof.
  unfold clear_lines. cbn [fst]. rewrite iter_insert_front.
  apply Forall_app. split.
  - apply Forall_replicate. apply list_elem_of_lookup. exists 0%nat. reflexivity.
  - apply Forall_forall. intros row Hrow.
    apply list_elem_of_In, filter_In in Hrow as [_ Hrow].
    apply has_empty_spec. exact Hrow.
Qed.

Lemma filter_all {A : Type} (Q : A -> Prop) `{forall a, Decision (Q a)}
  (l : list A) :
  Forall Q l -> filter Q l = l.
Proof.
  induction 1 as [|a l Ha Hl IH]; [reflexivity|].
  rewrite filter_cons_True by assumption. rewrite IH. reflexivity.
Qed.

Lemma filter_nothing {A : Type} (Q : A -> Prop) `{forall a, Decision (Q a)}
  (l : list A) :
  Forall (fun a => ~ Q a) l -> filter Q l = [].
Proof.
  induction 1 as [|a l Ha Hl IH]; [reflexivity|].
  rewrite filter_cons_False by assumption. exact IH.
Qed.

(** Nothing is cleared from a board that has no full row. *)
Lemma clear_lines_nothing (board : list (list Z)) :
  len board = TOTAL_ROWS -> Forall (fun row : list Z => 0 ∈ row) board ->
  clear_lines board = (board, 0).
Proof.
  intros Hlen Hrows. rewrite (clear_lines_rows board Hlen).
  rewrite (filter_all (fun row : list Z => 0 ∈ row)) by assumption.
  rewrite (filter_nothing (fun row : list Z => 0 ∉ row)).
  - reflexivity.
  - apply Forall_forall. intros row Hrow Hnot. apply Hnot.
    exact (proj1 (Forall_forall _ _) Hrows row Hrow).
Qed.

(** X3: clearing is idempotent: on a board of [TOTAL_ROWS] rows, a second
    [clear_lines] right after the first finds no full row and returns the
    board as it is, with count 0. *)
Theorem clear_lines_idempotent (board : list (list Z)) :
  len board = TOTAL_ROWS ->
  clear_lines (fst (clear_lines board)) = (fst (clear_lines board), 0).
Proof.
  intros Hlen. apply clear_lines_nothing.
  - rewrite (clear_lines_rows board Hlen). cbn [fst].
    unfold len. rewrite length_app, length_replicate.
    pose proof (length_filter_full board) as Hsum. unfold len in Hlen. lia.
  - apply clear_lines_no_full_row.
Qed.

Lemma clear_lines_idempotent_witness :
  len two_full_rows = TOTAL_ROWS /\
  clear_lines (fst (clear_lines two_full_rows))
  = (fst (clear_lines two_full_rows), 0).
Proof.
  split; [reflexivity|]. apply (clear_lines_idempotent two_full_rows).
  reflexivity.
Defined.

Lemma catalog_shape_cell_values (shape : list (list Z)) :
  catalog_shape shape -> all_cells cell_value shape.
Proof.
  intros [k Hin].
  apply (all_cells_b_spec (fun c => (0 <=? c) && (c <=? 7))).
  - intros c Hc. apply andb_prop in Hc as [H0 H7].
    apply Z.leb_le in H0, H7. split; assumption.
  - unfold orientations in Hin. simpl in Hin.
    destruct Hin as [<-|[<-|[<-|[<-|[]]]]]; destruct k; reflexivity.
Qed.

Lemma lock_piece_board (r : piece) (g g' : state) :
  board_wf (board g) -> lock_piece r g = Ok g' ->
  exists b, merge (current_shape g) (board g) (x g, y g) = Ok b /\
    board_wf b /\ board g' = fst (clear_lines b).
Proof.
  intros Hwf Hlock.
  destruct (lock_piece_result r g g' Hwf Hlock) as (b & Hb & Hwfb & Hnew).
  exists b. split; [assumption|]. split; [assumption|].
  apply spawn_new_frame in Hnew as (-> & _).
  rewrite (proj1 (lock_scoring_frame _ _)). reflexivity.
Qed.

Lemma new_board_cells : all_cells cell_value new_board /\
  Forall (fun row : list Z => 0 ∈ row) new_board.
Proof.
  split.
  - apply Forall_replicate. apply Forall_replicate. unfold cell_value. lia.
  - apply Forall_replicate. apply list_elem_of_lookup. exists 0%nat. reflexivity.
Qed.

Lemma reachable_board_ok (g : state) : reachable g -> board_ok g.
Proof.
  apply reachable_by_steps.
  - intros hl hn r1 r2 g0 Hinit. unfold board_ok.
    apply spawn_new_frame in Hinit as (-> & _). exact new_board_cells.
  - intros r g0 g' Hreach IH Hstep.
    pose proof (reachable_board_wf g0 Hreach) as Hwf.
    destruct Hstep as [| | |g' Hnew| | | |y1 g' _ _ _ _ Hlock];
      try exact IH.
    + unfold board_ok. apply spawn_new_frame in Hnew as (-> & _).
      exact new_board_cells.
    + destruct (lock_piece_board r (set_y g0 y1) g' Hwf Hlock)
        as (b & Hb & Hwfb & Hboard).
      unfold board_ok. rewrite Hboard. split.
      * apply clear_lines_all_cells; [unfold cell_value; lia|].
        apply (merge_all_cells cell_value _ _ _ _
                 (catalog_shape_cell_values _ (reachable_catalog_shape g0 Hreach))
                 (proj1 IH) Hb).
      * apply clear_lines_no_full_row.
Qed.

(** X4: in every reachable state the board has [TOTAL_ROWS] rows of [COLS]
    cells, every cell of the board and of the active shape is a value from
    0 to 7, and no row of the board is full: [clear_lines] would clear
    nothing. *)
Theorem reachable_board_invariant (g : state) :
  reachable g ->
  len (board g) = TOTAL_ROWS /\
  Forall (fun row => len row = COLS) (board g) /\
  all_cells cell_value (board g) /\
  all_cells cell_value (current_shape g) /\
  Forall (fun row : list Z => 0 ∈ row) (board g) /\
  clear_lines (board g) = (board g, 0).
Proof.
  intros Hreach.
  destruct (reachable_board_wf g Hreach) as [Hlen Hrows].
  destruct (reachable_board_ok g Hreach) as [Hcells Hnofull].
  split; [assumption|]. split; [assumption|]. split; [assumption|].
  split; [exact (catalog_shape_cell_values _ (reachable_catalog_shape g Hreach))|].
  split; [assumption|]. apply clear_lines_nothing; assumption.
Qed.

Lemma reachable_board_invariant_witness :
  exists g, play 30 0 0 key_I key_I one_line_game = Some (Ok g) /\
    reachable g /\
    len (board g) = TOTAL_ROWS /\
    Forall (fun row => len row = COLS) (board g) /\
    all_cells cell_value (board g) /\
    all_cells cell_value (current_shape g) /\
    Forall (fun row : list Z => 0 ∈ row) (board g) /\
    clear_lines (board g) = (board g, 0).
Proof.
  eexists. split; [vm_compute; reflexivity|].
  match goal with
  | |- reachable ?g /\ _ =>
      assert (Hg : reachable g)
        by (apply (reachable_play 30 0 0 key_I key_I one_line_game);
            vm_compute; reflexivity)
  end.
  split; [exact Hg|]. apply (reachable_board_invariant _ Hg).
Defined.

End BoardContents.

(** ** Counters and high scores *)

Section HighScores.
Import Tetris.

Lemma highs_step_refl (g : state) : highs_step g g.
Proof.
  unfold highs_step. split; [lia|]. split; [lia|].
  split; [exists []; symmetry; apply app_nil_r|]. left. auto.
Qed.

Lemma highs_step_trans (g1 g2 g3 : state) :
  highs_step g1 g2 -> highs_step g2 g3 -> highs_step g1 g3.
Proof.
  intros (Hl1 & Hn1 & (m1 & Hs1) & Hc1) (Hl2 & Hn2 & (m2 & Hs2) & Hc2).
  unfold highs_step. split; [lia|]. split; [lia|]. split.
  - exists (m1 ++ m2). rewrite Hs2, Hs1, app_assoc. reflexivity.
  - destruct Hc2 as [(El & En & Es)|Hlast]; [|right; exact Hlast].
    destruct Hc1 as [(El1 & En1 & Es1)|Hlast1].
    + left. repeat split; congruence.
    + right. rewrite Es, El, En. exact Hlast1.
Qed.

(** An operation that leaves the two fields and the trace alone. *)
Lemma highs_step_same (g g' : state) :
  high_level g' = high_level g -> high_lines g' = high_lines g ->
  saved g' = saved g -> highs_step g g'.
Proof.
  intros El En Es. unfold highs_step. rewrite El, En, Es.
  split; [lia|]. split; [lia|].
  split; [exists []; symmetry; apply app_nil_r|]. left. auto.
Qed.

Lemma save_stats_highs (g : state) : highs_step g (save_stats g).
Proof.
  unfold highs_step. split; [simpl; lia|]. split; [simpl; lia|].
  split; [eexists; reflexivity|]. right. apply last_snoc.
Qed.

Lemma spawn_failed_highs_step (g : state) : highs_step g (spawn_failed g).
Proof.
  destruct g as [b sc lv ln hl hn over p nt ct cs gx gy sv].
  unfold highs_step, spawn_failed. fields.
  destruct (Z.gtb_spec lv hl), (Z.gtb_spec ln hn); fields;
    (split; [lia|]); (split; [lia|]);
    (split; [eexists; try reflexivity; symmetry; apply app_nil_r|]);
    try (right; apply last_snoc); left; auto.
Qed.

Lemma lock_scoring_highs_step (c : Z) (g : state) :
  highs_step g (lock_scoring c g).
Proof.
  destruct g as [b sc lv ln hl hn over p nt ct cs gx gy sv].
  unfold highs_step, lock_scoring. fields.
  destruct (truthy c); fields.
  - destruct (Z.gtb_spec (ln + c) hn), (Z.gtb_spec (1 + (ln + c) `div` 10) hl);
      fields; (split; [lia|]); (split; [lia|]);
      (split; [eexists; try reflexivity; symmetry; apply app_nil_r|]);
      try (right; apply last_snoc); left; auto.
  - split; [lia|]. split; [lia|].
    split; [exists []; symmetry; apply app_nil_r|]. left. auto.
Qed.

(** [spawn_new], whatever the board: the piece is anchored somewhere, or
    the game-over path is taken. *)
Lemma spawn_new_inv (r : piece) (g g' : state) :
  spawn_new r g = Ok g' ->
  (exists c sy, g' = set_y (set_x (spawn_entry r g) c) sy)
  \/ g' = spawn_failed (spawn_entry r g).
Proof.
  unfold spawn_new. intros H.
  apply bind_Ok_inv in H as (row0 & _ & H).
  apply bind_Ok_inv in H as (found & _ & H).
  destruct found as [c|]; injection H as <-.
  - left. eexists _, _. reflexivity.
  - right. reflexivity.
Qed.

Lemma lock_piece_inv (r : piece) (g g' : state) :
  lock_piece r g = Ok g' ->
  exists b, merge (current_shape g) (board g) (x g, y g) = Ok b /\
    spawn_new r (lock_scoring (snd (clear_lines b))
                   (set_board g (fst (clear_lines b)))) = Ok g'.
Proof.
  unfold lock_piece. intros H. apply bind_Ok_inv in H as (b & Hb & H).
  exists b. split; [assumption|].
  destruct (clear_lines b) as [new_rows c]. exact H.
Qed.

Lemma spawn_new_highs_step (r : piece) (g g' : state) :
  spawn_new r g = Ok g' -> highs_step g g'.
Proof.
  intros H. destruct (spawn_new_inv r g g' H) as [(c & sy & ->)| ->].
  - apply highs_step_same; reflexivity.
  - apply (highs_step_trans g (spawn_entry r g)).
    + apply highs_step_same; reflexivity.
    + apply spawn_failed_highs_step.
Qed.

Lemma lock_piece_highs_step (r : piece) (g g' : state) :
  lock_piece r g = Ok g' -> highs_step g g'.
Proof.
  intros H. destruct (lock_piece_inv r g g' H) as (b & _ & Hnew).
  apply spawn_new_highs_step in Hnew.
  refine (highs_step_trans g _ g' _ Hnew).
  refine (highs_step_trans g (set_board g (fst (clear_lines b))) _ _ _).
  - apply highs_step_same; reflexivity.
  - apply lock_scoring_highs_step.
Qed.

Lemma step_highs_step (r : piece) (g g' : state) :
  step r g g' -> highs_step g g'.
Proof.
  intros Hstep.
  destruct Hstep as [| | |g' Hnew| | | |y1 g' _ _ _ _ Hlock];
    try (apply highs_step_same; reflexivity).
  - apply save_stats_highs.
  - apply spawn_new_highs_step in Hnew.
    refine (highs_step_trans g (reset_fields g) g' _ Hnew).
    apply highs_step_same; reflexivity.
  - apply lock_piece_highs_step in Hlock.
    refine (highs_step_trans g (set_y g y1) g' _ Hlock).
    apply highs_step_same; reflexivity.
Qed.

(** X5: no event lowers the high-score record or rewrites the trace of
    saves: after any event, from any state, [high_level] and [high_lines]
    are at least what they were and the saves made before are a prefix of
    the saves made. *)
Theorem high_scores_never_decrease (fuel : nat) (ev : event) (r : piece)
  (g g' : state) :
  handle_event fuel ev r g = Some (Ok g') ->
  high_level g <= high_level g' /\ high_lines g <= high_lines g' /\
  exists more, saved g' = saved g ++ more.
Proof.
  intros H. apply handle_event_step, step_highs_step in H.
  destruct H as (Hl & Hn & Hs & _). auto.
Qed.

Lemma high_scores_never_decrease_witness :
  exists g', handle_event 30 K_SPACE key_T three_rows_state = Some (Ok g') /\
    high_level three_rows_state <= high_level g' /\
    high_lines three_rows_state <= high_lines g' /\
    exists more, saved g' = saved three_rows_state ++ more.
Proof.
  eexists. split; [vm_compute; reflexivity|].
  apply (high_scores_never_decrease 30 K_SPACE key_T three_rows_state).
  vm_compute. reflexivity.
Defined.

Lemma highs_in_sync_step (hl hn : Z) (g g' : state) :
  highs_in_sync hl hn g -> highs_step g g' -> highs_in_sync hl hn g'.
Proof.
  intros Hsync (_ & _ & _ & [(El & En & Es)|Hlast]); [|right; exact Hlast].
  unfold highs_in_sync. rewrite El, En, Es. exact Hsync.
Qed.

Lemma run_highs_in_sync (hl hn : Z) (fuel : nat)
  (events : list (event * piece)) : forall g g',
  highs_in_sync hl hn g -> run fuel events g = Some (Ok g') ->
  highs_in_sync hl hn g'.
Proof.
  induction events as [|[ev r] events IH]; intros g g' Hg Hrun; simpl in Hrun.
  - injection Hrun as <-. exact Hg.
  - destruct (handle_event fuel ev r g) as [[g1|]|] eqn:Hev; try discriminate.
    apply (IH g1 g'); [|exact Hrun].
    apply (highs_in_sync_step hl hn g g1 Hg).
    exact (step_highs_step r g g1 (handle_event_step fuel ev r g g1 Hev)).
Qed.

(** X6: throughout a game that started from the loaded record [(hl, hn)],
    the record in memory is the loaded one as long as nothing has been
    saved, and is the last record saved otherwise: a change of either
    field in memory is always followed by a save before the event ends. *)
Theorem saved_record_in_sync (fuel : nat) (hl hn : Z) (r1 r2 : piece)
  (events : list (event * piece)) (g : state) :
  play fuel hl hn r1 r2 events = Some (Ok g) ->
  (saved g = [] /\ high_level g = hl /\ high_lines g = hn)
  \/ last (saved g) = Some (high_level g, high_lines g).
Proof.
  unfold play. destruct (init hl hn r1 r2) as [g0|] eqn:Hinit; [|discriminate].
  intros Hrun. apply (run_highs_in_sync hl hn fuel events g0 g); [|exact Hrun].
  apply (highs_in_sync_step hl hn (blank hl hn r1)).
  - left. repeat split; reflexivity.
  - exact (spawn_new_highs_step r2 _ g0 Hinit).
Qed.

Lemma saved_record_in_sync_witness :
  exists g, play 30 0 0 key_I key_I one_line_game = Some (Ok g) /\
    ((saved g = [] /\ high_level g = 0 /\ high_lines g = 0)
     \/ last (saved g) = Some (high_level g, high_lines g)).
Proof.
  eexists. split; [vm_compute; reflexivity|].
  apply (saved_record_in_sync 30 0 0 key_I key_I one_line_game).
  vm_compute. reflexivity.
Defined.

End HighScores.

Section Counters.
Import Tetris.

Lemma lock_scoring_cover (c : Z) (g : state) :
  c <> 0 ->
  lines (lock_scoring c g) <= high_lines (lock_scoring c g) /\
  level (lock_scoring c g) <= high_level (lock_scoring c g).
Proof.
  intros Hc. apply truthy_true in Hc.
  destruct g as [b sc lv ln hl hn over p nt ct cs gx gy sv].
  unfold lock_scoring. fields. rewrite Hc.
  destruct (Z.gtb_spec (ln + c) hn), (Z.gtb_spec (1 + (ln + c) `div` 10) hl);
    fields; lia.
Qed.

Lemma lock_scoring_zero (g : state) : lock_scoring 0 g = g.
Proof. reflexivity. Qed.

(** The counters after a lock, from the merged board [b]. *)
Lemma lock_piece_counters (r : piece) (g g' : state) (b : list (list Z)) :
  spawn_new r (lock_scoring (snd (clear_lines b))
                 (set_board g (fst (clear_lines b)))) = Ok g' ->
  let c := snd (clear_lines b) in
  (c <> 0 ->
   score g' = score g + 100 * c * level g /\ lines g' = lines g + c /\
   level g' = 1 + (lines g + c) `div` 10 /\
   lines g' <= high_lines g' /\ level g' <= high_level g') /\
  (c = 0 ->
   score g' = score g /\ lines g' = lines g /\ level g' = level g /\
   high_lines g <= high_lines g' /\ high_level g <= high_level g').
Proof.
  intros Hnew c. fold c in Hnew.
  pose proof (spawn_new_highs_step r _ g' Hnew) as (Hl & Hn & _).
  apply spawn_new_frame in Hnew as (_ & Hs & Hlv & Hln & _).
  destruct (lock_scoring_counters c (set_board g (fst (clear_lines b))))
    as [Hpos Hzero].
  change (score (set_board g (fst (clear_lines b)))) with (score g) in *.
  change (lines (set_board g (fst (clear_lines b)))) with (lines g) in *.
  change (level (set_board g (fst (clear_lines b)))) with (level g) in *.
  split; intros Hc.
  - destruct (Hpos Hc) as (E1 & E2 & E3).
    destruct (lock_scoring_cover c (set_board g (fst (clear_lines b))) Hc)
      as [C1 C2].
    rewrite Hs, Hlv, Hln, E1, E2, E3. rewrite E2 in C1. rewrite E3 in C2.
    repeat split; try reflexivity; lia.
  - destruct (Hzero Hc) as (E1 & E2 & E3).
    rewrite Hs, Hlv, Hln, E1, E2, E3. subst c. rewrite Hc in Hl, Hn.
    rewrite lock_scoring_zero in Hl, Hn.
    repeat split; try reflexivity; assumption.
Qed.

Lemma reachable_counters (g : state) :
  reachable g ->
  0 <= lines g /\ exists k, 0 <= k /\ score g = 100 * k.
Proof.
  revert g. apply reachable_by_steps.
  - intros hl hn r1 r2 g Hinit.
    apply spawn_new_frame in Hinit as (_ & -> & _ & -> & _).
    split; [simpl; lia|]. exists 0. split; [lia|reflexivity].
  - intros r g g' Hreach IH Hstep.
    pose proof (reachable_board_wf g Hreach) as Hwf.
    pose proof (reachable_level_inv g Hreach) as Hlevel.
    unfold level_inv in Hlevel.
    destruct Hstep as [| | |g' Hnew| | | |y1 g' _ _ _ _ Hlock];
      try exact IH.
    + apply spawn_new_frame in Hnew as (_ & -> & _ & -> & _).
      split; [simpl; lia|]. exists 0. split; [lia|reflexivity].
    + destruct (lock_piece_result r (set_y g y1) g' Hwf Hlock)
        as (b & _ & Hwfb & Hnew).
      pose proof (proj2 (clear_lines_wf b Hwfb)) as Hc.
      destruct (lock_piece_counters r (set_y g y1) g' b Hnew) as [Hpos Hzero].
      change (score (set_y g y1)) with (score g) in *.
      change (lines (set_y g y1)) with (lines g) in *.
      change (level (set_y g y1)) with (level g) in *.
      destruct IH as (Hln & k & Hk & Hsc).
      destruct (Z.eq_dec (snd (clear_lines b)) 0) as [Hz|Hnz].
      * destruct (Hzero Hz) as (-> & -> & _). split; [assumption|].
        exists k. split; assumption.
      * destruct (Hpos Hnz) as (-> & -> & _). split; [lia|].
        assert (Hlv : 1 <= level g).
        { rewrite Hlevel. pose proof (Z.div_pos (lines g) 10 Hln). lia. }
        exists (k + snd (clear_lines b) * level g). split; [nia|].
        rewrite Hsc. ring.
Qed.

Lemma reachable_level_positive (g : state) : reachable g -> 1 <= level g.
Proof.
  intros Hreach. rewrite (reachable_level_inv g Hreach).
  destruct (reachable_counters g Hreach) as [Hln _].
  pose proof (Z.div_pos (lines g) 10 Hln). lia.
Qed.

(** X7: in every reachable state the line counter and the score are not
    negative, the score is a multiple of 100, and the level is at least
    1. *)
Theorem counters_in_range (g : state) :
  reachable g ->
  0 <= lines g /\ 0 <= score g /\ (100 | score g) /\ 1 <= level g.
Proof.
  intros Hreach.
  destruct (reachable_counters g Hreach) as (Hln & k & Hk & Hsc).
  split; [assumption|]. split; [lia|]. split; [exists k; lia|].
  exact (reachable_level_positive g Hreach).
Qed.

Lemma counters_in_range_witness :
  exists g, play 30 0 0 key_I key_I one_line_game = Some (Ok g) /\
    reachable g /\ score g = 100 /\
    0 <= lines g /\ 0 <= score g /\ (100 | score g) /\ 1 <= level g.
Proof.
  eexists. split; [vm_compute; reflexivity|].
  match goal with
  | |- reachable ?g /\ _ =>
      assert (Hg : reachable g)
        by (apply (reachable_play 30 0 0 key_I key_I one_line_game);
            vm_compute; reflexivity)
  end.
  split; [exact Hg|]. split; [reflexivity|].
  apply (counters_in_range _ Hg).
Defined.

(** X8: in every reachable state the high-score record covers the
    counters of the game in progress once a line has been cleared:
    [lines <= high_lines] unless [lines] is 0, and [level <= high_level]
    unless [level] is 1. *)
Theorem high_scores_cover_counters (g : state) :
  reachable g ->
  (lines g = 0 \/ lines g <= high_lines g) /\
  (level g = 1 \/ level g <= high_level g).
Proof.
  revert g. apply reachable_by_steps.
  - intros hl hn r1 r2 g Hinit.
    apply spawn_new_frame in Hinit as (_ & _ & -> & -> & _).
    split; left; reflexivity.
  - intros r g g' Hreach IH Hstep.
    destruct Hstep as [| | |g' Hnew| | | |y1 g' _ _ _ _ Hlock];
      try exact IH.
    + apply spawn_new_frame in Hnew as (_ & _ & -> & -> & _).
      split; left; reflexivity.
    + destruct (lock_piece_inv r (set_y g y1) g' Hlock) as (b & _ & Hnew).
      destruct (lock_piece_counters r (set_y g y1) g' b Hnew) as [Hpos Hzero].
      change (score (set_y g y1)) with (score g) in *.
      change (lines (set_y g y1)) with (lines g) in *.
      change (level (set_y g y1)) with (level g) in *.
      change (high_lines (set_y g y1)) with (high_lines g) in *.
      change (high_level (set_y g y1)) with (high_level g) in *.
      destruct (Z.eq_dec (snd (clear_lines b)) 0) as [Hz|Hnz].
      * destruct (Hzero Hz) as (_ & -> & -> & Hn & Hl).
        destruct IH as [[?|?] [?|?]]; split; (left; assumption) || (right; lia).
      * destruct (Hpos Hnz) as (_ & _ & _ & Hn & Hl).
        split; right; assumption.
Qed.

Lemma high_scores_cover_counters_witness :
  exists g, play 30 0 0 key_I key_I one_line_game = Some (Ok g) /\
    reachable g /\ lines g = 1 /\
    (lines g = 0 \/ lines g <= high_lines g) /\
    (level g = 1 \/ level g <= high_level g).
Proof.
  eexists. split; [vm_compute; reflexivity|].
  match goal with
  | |- reachable ?g /\ _ =>
      assert (Hg : reachable g)
        by (apply (reachable_play 30 0 0 key_I key_I one_line_game);
            vm_compute; reflexivity)
  end.
  split; [exact Hg|]. split; [reflexivity|].
  apply (high_scores_cover_counters _ Hg).
Defined.

End Counters.

(** ** Construction and reset *)

Section FreshBoard.
Import Tetris.

(** X9: the reset key, in any state: the board is empty again, score and
    lines are 0, the level is 1 and [game_over] is unset; the pause flag,
    the high-score record and the trace of saves are kept; the piece that
    was next is the active one, centred, at its spawn row, and the draw is
    the new next piece. *)
Theorem reset_spec (fuel : nat) (r : piece) (g : state) :
  exists g', handle_event fuel K_r r g = Some (Ok g') /\
    board g' = new_board /\ score g' = 0 /\ level g' = 1 /\ lines g' = 0 /\
    game_over g' = false /\ paused g' = paused g /\
    high_level g' = high_level g /\ high_lines g' = high_lines g /\
    saved g' = saved g /\
    current_type g' = next_type g /\
    current_shape g' = SHAPES (next_type g) /\ next_type g' = r /\
    x g' = (COLS - shape_width (SHAPES (next_type g))) `div` 2 /\
    y g' = HIDDEN_ROWS - shape_height (SHAPES (next_type g)).
Proof.
  destruct g as [b sc lv ln hl hn over p nt ct cs gx gy sv].
  destruct nt; eexists; (split; [vm_compute; reflexivity|]);
    repeat split; reflexivity.
Qed.

(** X10: construction, for every loaded record and every pair of draws:
    [__init__] raises nothing and never ends in game over; the board is
    empty, the counters are 0, 1 and 0, nothing is saved, the first draw
    is the active piece, centred, at its spawn row, and the second draw is
    the next piece. *)
Theorem init_spec (hl hn : Z) (r1 r2 : piece) :
  exists g, init hl hn r1 r2 = Ok g /\
    board g = new_board /\ score g = 0 /\ level g = 1 /\ lines g = 0 /\
    game_over g = false /\ paused g = false /\
    high_level g = hl /\ high_lines g = hn /\ saved g = [] /\
    current_type g = r1 /\ current_shape g = SHAPES r1 /\ next_type g = r2 /\
    x g = (COLS - shape_width (SHAPES r1)) `div` 2 /\
    y g = HIDDEN_ROWS - shape_height (SHAPES r1).
Proof.
  unfold init. destruct r1; eexists; (split; [vm_compute; reflexivity|]);
    repeat split; reflexivity.
Qed.

End FreshBoard.

(** ** The timer interval *)

Section FallSpeed.
Import Tetris.

(** X11: the timer interval is never below 100 ms, is at most 1000 ms
    from level 1 on, does not grow with the level, and is 100 ms from
    level 16 on; in every reachable state it lies between 100 and 1000 and
    is [max(1000 - 60 * (lines // 10), 100)]. *)
Theorem fall_speed_bounds (level1 level2 : Z) (g : state) :
  100 <= fall_speed level1 /\
  (1 <= level1 -> fall_speed level1 <= 1000) /\
  (level1 <= level2 -> fall_speed level2 <= fall_speed level1) /\
  (16 <= level1 -> fall_speed level1 = 100) /\
  (reachable g ->
   100 <= fall_speed (level g) <= 1000 /\
   fall_speed (level g) = Z.max (1000 - 60 * (lines g `div` 10)) 100).
Proof.
  unfold fall_speed. split; [lia|]. split; [lia|]. split; [lia|].
  split; [lia|]. intros Hreach.
  pose proof (reachable_level_positive g Hreach) as Hlevel.
  split; [lia|].
  rewrite (reachable_level_inv g Hreach). f_equal. lia.
Qed.

Lemma fall_speed_bounds_witness :
  exists g, play 30 0 0 key_I key_I one_line_game = Some (Ok g) /\
    reachable g /\
    100 <= fall_speed 3 /\
    (1 <= 3 -> fall_speed 3 <= 1000) /\
    (3 <= 5 -> fall_speed 5 <= fall_speed 3) /\
    (16 <= 3 -> fall_speed 3 = 100) /\
    (reachable g ->
     100 <= fall_speed (level g) <= 1000 /\
     fall_speed (level g) = Z.max (1000 - 60 * (lines g `div` 10)) 100).
Proof.
  eexists. split; [vm_compute; reflexivity|].
  match goal with
  | |- reachable ?g /\ _ =>
      assert (Hg : reachable g)
        by (apply (reachable_play 30 0 0 key_I key_I one_line_game);
            vm_compute; reflexivity)
  end.
  split; [exact Hg|]. apply (fall_speed_bounds 3 5).
Defined.

End FallSpeed.

(** ** The candidate columns *)

Section Candidates.
Import Tetris.

Ltac nodup_concrete :=
  repeat (apply NoDup_cons; split;
          [rewrite list_elem_of_In; simpl; lia|]);
  apply NoDup_nil; exact I.

(** X12: for every width [w >= 0], [find_spawn_x_order] lists exactly the
    columns [0 .. COLS - w], each of them once; when there is such a
    column the list starts with the centre [(COLS - w) // 2]. *)
Theorem find_spawn_x_order_columns (w : Z) :
  0 <= w ->
  NoDup (find_spawn_x_order w) /\
  (forall c, In c (find_spawn_x_order w) <-> 0 <= c <= COLS - w) /\
  len (find_spawn_x_order w) = Z.max 0 (COLS - w + 1) /\
  (w <= COLS -> hd_error (find_spawn_x_order w) = Some ((COLS - w) `div` 2)).
Proof.
  intros Hw. split; [|split; [intros c; apply In_find_spawn_x_order; assumption|]].
  - destruct (Z.le_gt_cases w 10) as [Hle|Hgt].
    + assert (w = 0 \/ w = 1 \/ w = 2 \/ w = 3 \/ w = 4 \/ w = 5 \/ w = 6
              \/ w = 7 \/ w = 8 \/ w = 9 \/ w = 10) as Hcases by lia.
      repeat (destruct Hcases as [->|Hcases];
              [set (l := find_spawn_x_order _); vm_compute in l; subst l;
               nodup_concrete|]).
      subst w. set (l := find_spawn_x_order _); vm_compute in l; subst l.
      nodup_concrete.
    + unfold find_spawn_x_order. rewrite filter_none; [apply NoDup_nil; exact I|].
      intros a _. unfold COLS. apply andb_false_iff.
      rewrite Z.leb_gt, Z.leb_gt. lia.
  - destruct (Z.le_gt_cases w 10) as [Hle|Hgt].
    + assert (w = 0 \/ w = 1 \/ w = 2 \/ w = 3 \/ w = 4 \/ w = 5 \/ w = 6
              \/ w = 7 \/ w = 8 \/ w = 9 \/ w = 10) as Hcases by lia.
      repeat (destruct Hcases as [->|Hcases]; [split; reflexivity|]).
      subst w. split; reflexivity.
    + unfold find_spawn_x_order. rewrite filter_none.
      * unfold COLS, len. split; [simpl; lia|intros; lia].
      * intros a _. unfold COLS. apply andb_false_iff.
        rewrite Z.leb_gt, Z.leb_gt. lia.
Qed.

Lemma find_spawn_x_order_columns_witness :
  0 <= 3 /\
  NoDup (find_spawn_x_order 3) /\
  (forall c, In c (find_spawn_x_order 3) <-> 0 <= c <= COLS - 3) /\
  len (find_spawn_x_order 3) = Z.max 0 (COLS - 3 + 1) /\
  (3 <= COLS -> hd_error (find_spawn_x_order 3) = Some ((COLS - 3) `div` 2)).
Proof. split; [lia|]. apply (find_spawn_x_order_columns 3). lia. Defined.

End Candidates.

(** ** What [merge] writes *)

Section MergeContents.

Lemma row_block_cons (cell : Z) (row : list Z) (i : Z) :
  row_block (cell :: row) i
  = if i =? 0 then (if truthy cell then Some cell else None)
    else row_block row (i - 1).
Proof.
  unfold row_block.
  destruct (Z.eqb_spec i 0) as [->|Hi]; [reflexivity|].
  destruct (Z.ltb_spec i 0) as [Hneg|Hpos].
  - destruct (Z.ltb_spec (i - 1) 0); [reflexivity|lia].
  - destruct (Z.ltb_spec (i - 1) 0); [lia|].
    replace (Z.to_nat i) with (S (Z.to_nat (i - 1))) by lia. reflexivity.
Qed.

Lemma shape_block_cons (row : list Z) (shape : list (list Z)) (i j : Z) :
  shape_block (row :: shape) i j
  = if j =? 0 then row_block row i else shape_block shape i (j - 1).
Proof.
  unfold shape_block, board_cell, row_block.
  destruct (Z.eqb_spec j 0) as [->|Hj].
  - destruct (Z.ltb_spec i 0); reflexivity.
  - destruct (Z.ltb_spec i 0); [reflexivity|]. simpl.
    destruct (Z.ltb_spec j 0) as [Hneg|Hpos].
    + destruct (Z.ltb_spec (j - 1) 0); [reflexivity|lia].
    + destruct (Z.ltb_spec (j - 1) 0); [lia|].
      replace (Z.to_nat j) with (S (Z.to_nat (j - 1))) by lia. reflexivity.
Qed.

Lemma shape_block_nil (i j : Z) : shape_block [] i j = None.
Proof.
  unfold shape_block, board_cell. destruct (_ || _); reflexivity.
Qed.

Lemma board_cell_insert (board : list (list Z)) (brow : list Z)
  (n m : nat) (v : Z) (bx by_ : Z) :
  board !! n = Some brow -> (m < length brow)%nat -> 0 <= bx -> 0 <= by_ ->
  board_cell (<[n := <[m := v]> brow]> board) bx by_
  = if (bx =? Z.of_nat m) && (by_ =? Z.of_nat n) then Some v
    else board_cell board bx by_.
Proof.
  intros Hrow Hm Hx Hy. unfold board_cell.
  destruct (Z.ltb_spec bx 0); [lia|]. destruct (Z.ltb_spec by_ 0); [lia|].
  simpl. pose proof (lookup_lt_Some _ _ _ Hrow) as Hn.
  destruct (Z.eqb_spec by_ (Z.of_nat n)) as [->|Hne].
  - rewrite Nat2Z.id, list_lookup_insert_eq by assumption. rewrite Hrow. simpl.
    destruct (Z.eqb_spec bx (Z.of_nat m)) as [->|Hnx]; simpl.
    + rewrite Nat2Z.id. apply list_lookup_insert_eq. assumption.
    + apply list_lookup_insert_ne. lia.
  - rewrite andb_false_r. rewrite list_lookup_insert_ne by lia. reflexivity.
Qed.

Section Offset.
Variables off_x off_y : Z.

Lemma merge_cell_spec (board : list (list Z)) (x y cell : Z) :
  board_wf board ->
  exists board', merge_cell board off_x off_y x y cell = Ok board' /\
    board_wf board' /\
    forall bx by_, 0 <= bx < COLS -> 0 <= by_ < TOTAL_ROWS ->
      board_cell board' bx by_
      = if truthy cell && (bx =? off_x + x) && (by_ =? off_y + y)
        then Some cell else board_cell board bx by_.
Proof.
  intros Hwf. unfold merge_cell.
  destruct (truthy cell); simpl;
    [|exists board; split; [reflexivity|split; [assumption|reflexivity]]].
  destruct ((0 <=? off_y + y) && (off_y + y <? TOTAL_ROWS)
            && (0 <=? off_x + x) && (off_x + x <? COLS)) eqn:Hin.
  - apply andb_prop in Hin as [Hin Hx1]. apply andb_prop in Hin as [Hin Hx0].
    apply andb_prop in Hin as [Hy0 Hy1].
    apply Z.leb_le in Hy0, Hx0. apply Z.ltb_lt in Hy1, Hx1.
    destruct (board_wf_row board (off_y + y) Hwf) as (brow & Hget & Hlk & Hlen);
      [lia|].
    pose proof Hwf as [Hrows Hall].
    rewrite Hget, bind_Ok, (setitem_inside brow) by lia.
    rewrite bind_Ok, (setitem_inside board) by lia.
    eexists. split; [reflexivity|]. split.
    + split.
      * unfold len in *. rewrite length_insert. assumption.
      * apply Forall_insert; [assumption|].
        unfold len in *. rewrite length_insert. assumption.
    + intros bx by_ Hbx Hby.
      rewrite (board_cell_insert board brow _ _ cell bx by_ Hlk);
        [|unfold len in Hlen; lia|lia|lia].
      rewrite !Z2Nat.id by lia. reflexivity.
  - exists board. split; [reflexivity|]. split; [assumption|].
    intros bx by_ Hbx Hby.
    destruct (Z.eqb_spec bx (off_x + x)) as [->|?]; [|reflexivity].
    destruct (Z.eqb_spec by_ (off_y + y)) as [->|?]; [|reflexivity].
    exfalso. apply andb_false_iff in Hin as [Hin|Hin].
    + apply andb_false_iff in Hin as [Hin|Hin].
      * apply andb_false_iff in Hin as [Hin|Hin].
        -- apply Z.leb_gt in Hin. lia.
        -- apply Z.ltb_ge in Hin. lia.
      * apply Z.leb_gt in Hin. lia.
    + apply Z.ltb_ge in Hin. lia.
Qed.

Lemma merge_row_spec (y : Z) (row : list Z) :
  forall (board : list (list Z)) (x : Z),
  board_wf board ->
  exists board', merge_row board off_x off_y x y row = Ok board' /\
    board_wf board' /\
    forall bx by_, 0 <= bx < COLS -> 0 <= by_ < TOTAL_ROWS ->
      board_cell board' bx by_
      = if by_ =? off_y + y
        then match row_block row (bx - off_x - x) with
             | Some c => Some c
             | None => board_cell board bx by_
             end
        else board_cell board bx by_.
Proof.
  induction row as [|cell row IH]; intros board x Hwf; simpl.
  - exists board. split; [reflexivity|]. split; [assumption|].
    intros bx by_ _ _. unfold row_block.
    destruct (_ =? _); [|reflexivity].
    destruct (_ <? 0); [reflexivity|]. rewrite lookup_nil. reflexivity.
  - destruct (merge_cell_spec board x y cell Hwf) as (b1 & Hb1 & Hwf1 & Hc1).
    rewrite Hb1, bind_Ok.
    destruct (IH b1 (x + 1) Hwf1) as (b2 & Hb2 & Hwf2 & Hc2).
    exists b2. split; [assumption|]. split; [assumption|].
    intros bx by_ Hbx Hby. rewrite (Hc2 bx by_ Hbx Hby), (Hc1 bx by_ Hbx Hby).
    rewrite row_block_cons.
    replace (bx - off_x - (x + 1)) with (bx - off_x - x - 1) by lia.
    destruct (Z.eqb_spec by_ (off_y + y)) as [Hy|Hy].
    + destruct (Z.eqb_spec (bx - off_x - x) 0) as [Hx0|Hx0].
      * replace (bx - off_x - x - 1) with (-1) by lia.
        change (row_block row (-1)) with (@None Z).
        destruct (Z.eqb_spec bx (off_x + x)); [|lia].
        rewrite andb_true_r. destruct (truthy cell); reflexivity.
      * destruct (Z.eqb_spec bx (off_x + x)); [lia|].
        rewrite andb_false_r. reflexivity.
    + rewrite andb_false_r. reflexivity.
Qed.

Lemma merge_rows_spec (shape : list (list Z)) :
  forall (board : list (list Z)) (y : Z),
  board_wf board ->
  exists board', merge_rows board off_x off_y y shape = Ok board' /\
    board_wf board' /\
    forall bx by_, 0 <= bx < COLS -> 0 <= by_ < TOTAL_ROWS ->
      board_cell board' bx by_
      = match shape_block shape (bx - off_x) (by_ - off_y - y) with
        | Some c => Some c
        | None => board_cell board bx by_
        end.
Proof.
  induction shape as [|row shape IH]; intros board y Hwf; simpl.
  - exists board. split; [reflexivity|]. split; [assumption|].
    intros bx by_ _ _. rewrite shape_block_nil. reflexivity.
  - destruct (merge_row_spec y row board 0 Hwf) as (b1 & Hb1 & Hwf1 & Hc1).
    rewrite Hb1, bind_Ok.
    destruct (IH b1 (y + 1) Hwf1) as (b2 & Hb2 & Hwf2 & Hc2).
    exists b2. split; [assumption|]. split; [assumption|].
    intros bx by_ Hbx Hby. rewrite (Hc2 bx by_ Hbx Hby), (Hc1 bx by_ Hbx Hby).
    rewrite shape_block_cons.
    replace (by_ - off_y - (y + 1)) with (by_ - off_y - y - 1) by lia.
    replace (bx - off_x - 0) with (bx - off_x) by lia.
    destruct (Z.eqb_spec (by_ - off_y - y) 0) as [Hy0|Hy0].
    + replace (by_ - off_y - y - 1) with (-1) by lia.
      assert (Hnone : shape_block shape (bx - off_x) (-1) = None).
      { unfold shape_block, board_cell. rewrite orb_true_r. reflexivity. }
      rewrite Hnone. destruct (Z.eqb_spec by_ (off_y + y)); [reflexivity|lia].
    + destruct (Z.eqb_spec by_ (off_y + y)); [lia|]. reflexivity.
Qed.

End Offset.

(** X13: on a board of [TOTAL_ROWS] x [COLS] cells, [merge] raises
    nothing, whatever the shape and the offset, and returns a board of the
    same dimensions in which each cell of the grid holds the block of the
    shape that lands on it, if there is one, and its old value otherwise;
    blocks that land outside the grid are dropped. *)
Theorem merge_spec (shape board : list (list Z)) (off_x off_y : Z) :
  board_wf board ->
  exists board', merge shape board (off_x, off_y) = Ok board' /\
    board_wf board' /\
    forall bx by_, 0 <= bx < COLS -> 0 <= by_ < TOTAL_ROWS ->
      board_cell board' bx by_
      = match shape_block shape (bx - off_x) (by_ - off_y) with
        | Some c => Some c
        | None => board_cell board bx by_
        end.
Proof.
  intros Hwf.
  destruct (merge_rows_spec off_x off_y shape board 0 Hwf)
    as (b' & Hb' & Hwf' & Hcells).
  exists b'. split; [exact Hb'|]. split; [exact Hwf'|].
  intros bx by_ Hbx Hby. rewrite (Hcells bx by_ Hbx Hby).
  replace (by_ - off_y - 0) with (by_ - off_y) by lia. reflexivity.
Qed.

Lemma merge_spec_witness :
  board_wf new_board /\
  exists board', merge (SHAPES key_T) new_board (8, 22) = Ok board' /\
    board_wf board' /\
    forall bx by_, 0 <= bx < COLS -> 0 <= by_ < TOTAL_ROWS ->
      board_cell board' bx by_
      = match shape_block (SHAPES key_T) (bx - 8) (by_ - 22) with
        | Some c => Some c
        | None => board_cell new_board bx by_
        end.
Proof.
  split; [exact new_board_wf|].
  apply (merge_spec (SHAPES key_T) new_board 8 22). exact new_board_wf.
Defined.

End MergeContents.

(** ** A merged piece and the pieces after it *)

Section Support.
Import Tetris.

Lemma shape_block_of_cell (shape : list (list Z)) (i j : nat) (cell : Z) :
  shape_cell shape i j cell -> cell <> 0 ->
  shape_block shape (Z.of_nat i) (Z.of_nat j) = Some cell.
Proof.
  intros (row & Hrow & Hcell) Hnz. unfold shape_block, board_cell.
  destruct (Z.ltb_spec (Z.of_nat i) 0); [lia|].
  destruct (Z.ltb_spec (Z.of_nat j) 0); [lia|].
  simpl. rewrite !Nat2Z.id, Hrow. simpl. rewrite Hcell.
  rewrite (proj2 (truthy_true cell) Hnz). reflexivity.
Qed.

Lemma board_cell_occupied (board : list (list Z)) (bx by_ c : Z) :
  board_wf board -> 0 <= bx < COLS -> 0 <= by_ < TOTAL_ROWS ->
  board_cell board bx by_ = Some c -> c <> 0 -> occupied board bx by_.
Proof.
  intros Hwf Hbx Hby Hcell Hc.
  destruct (board_cell_wf board bx by_ Hwf Hbx Hby) as (brow & c' & Hg1 & Hg2 & Hbc).
  rewrite Hcell in Hbc. injection Hbc as <-.
  exists brow, c. repeat split; assumption.
Qed.

Lemma occupied_board_cell (board : list (list Z)) (bx by_ : Z) :
  board_wf board -> 0 <= bx < COLS -> 0 <= by_ < TOTAL_ROWS ->
  occupied board bx by_ ->
  exists c, board_cell board bx by_ = Some c /\ c <> 0.
Proof.
  intros Hwf Hbx Hby (brow & c & Hg1 & Hg2 & Hc).
  destruct (board_cell_wf board bx by_ Hwf Hbx Hby) as (brow' & c' & Hg1' & Hg2' & Hbc).
  rewrite Hg1 in Hg1'. injection Hg1' as <-.
  rewrite Hg2 in Hg2'. injection Hg2' as <-.
  exists c. split; assumption.
Qed.

(** X14: a merged piece blocks its own place: after [merge] of a shape at
    an offset, on a well-formed board, [collide] of the same shape at the
    same offset is true, provided the shape has a block in a row [>= 0]
    there. *)
Theorem merge_then_collide (shape board : list (list Z)) (off_x off_y : Z)
  (i j : nat) (cell : Z) :
  board_wf board ->
  shape_cell shape i j cell -> cell <> 0 -> 0 <= off_y + Z.of_nat j ->
  exists board', merge shape board (off_x, off_y) = Ok board' /\
    collide board' shape (off_x, off_y) = Ok true.
Proof.
  intros Hwf Hcell Hnz Hrow.
  destruct (merge_rows_spec off_x off_y shape board 0 Hwf)
    as (b' & Hb' & Hwf' & Hcells).
  exists b'. split; [exact Hb'|].
  destruct (collide_wf b' Hwf' off_x off_y shape) as (c & Hc & Hspec).
  rewrite Hc. f_equal. apply Hspec. exists i, j, cell.
  split; [assumption|]. split; [assumption|]. unfold blocked.
  destruct (Z.lt_ge_cases (off_x + Z.of_nat i) 0) as [?|Hx0]; [left; lia|].
  destruct (Z.lt_ge_cases (off_x + Z.of_nat i) COLS) as [Hx1|?];
    [|right; left; lia].
  destruct (Z.lt_ge_cases (off_y + Z.of_nat j) TOTAL_ROWS) as [Hy1|?];
    [|right; right; left; lia].
  right; right; right. split; [lia|].
  apply (board_cell_occupied b' _ _ cell Hwf'); [lia|lia| |assumption].
  rewrite Hcells by lia.
  replace (off_x + Z.of_nat i - off_x) with (Z.of_nat i) by lia.
  replace (off_y + Z.of_nat j - off_y - 0) with (Z.of_nat j) by lia.
  rewrite (shape_block_of_cell shape i j cell Hcell Hnz). reflexivity.
Qed.

Lemma merge_then_collide_witness :
  (board_wf new_board /\ shape_cell (SHAPES key_T) 1 0 6 /\ 6 <> 0 /\
   0 <= 22 + Z.of_nat 0) /\
  exists board', merge (SHAPES key_T) new_board (4, 22) = Ok board' /\
    collide board' (SHAPES key_T) (4, 22) = Ok true.
Proof.
  assert (Hcell : shape_cell (SHAPES key_T) 1 0 6)
    by (exists [0; 6; 0]; split; reflexivity).
  split; [split; [exact new_board_wf|split; [exact Hcell|split; [discriminate|lia]]]|].
  apply (merge_then_collide (SHAPES key_T) new_board 4 22 1 0 6);
    [exact new_board_wf|exact Hcell|discriminate|lia].
Defined.

(** A shape that is free at row [y] and collides one row further down has
    a block right above the floor or right above a settled block. *)
Lemma blocked_descent_support (board shape : list (list Z)) (gx gy : Z) :
  board_wf board ->
  collide board shape (gx, gy) = Ok false ->
  collide board shape (gx, gy + 1) = Ok true ->
  exists (i j : nat) (cell : Z), shape_cell shape i j cell /\ cell <> 0 /\
    (gy + Z.of_nat j + 1 = TOTAL_ROWS \/
     exists c, board_cell board (gx + Z.of_nat i) (gy + Z.of_nat j + 1) = Some c
               /\ c <> 0).
Proof.
  intros Hwf Hfree Hstop.
  destruct (collide_wf board Hwf gx gy shape) as (b0 & Hb0 & Hspec0).
  rewrite Hfree in Hb0. injection Hb0 as <-.
  destruct (collide_wf board Hwf gx (gy + 1) shape) as (b1 & Hb1 & Hspec1).
  rewrite Hstop in Hb1. injection Hb1 as <-.
  destruct (proj1 Hspec1 eq_refl) as (i & j & cell & Hcell & Hnz & Hbl).
  exists i, j, cell. split; [assumption|]. split; [assumption|].
  assert (Hhere : ~ blocked board (gx + Z.of_nat i) (gy + Z.of_nat j)).
  { intros H. assert (false = true) as Habs; [|discriminate].
    apply Hspec0. exists i, j, cell. repeat split; assumption. }
  unfold blocked in Hhere, Hbl.
  assert (Hx0 : 0 <= gx + Z.of_nat i).
  { destruct (Z.lt_ge_cases (gx + Z.of_nat i) 0); [|assumption].
    exfalso. apply Hhere. left. assumption. }
  assert (Hx1 : gx + Z.of_nat i < COLS).
  { destruct (Z.lt_ge_cases (gx + Z.of_nat i) COLS); [assumption|].
    exfalso. apply Hhere. right; left. lia. }
  assert (Hy1 : gy + Z.of_nat j < TOTAL_ROWS).
  { destruct (Z.lt_ge_cases (gy + Z.of_nat j) TOTAL_ROWS); [assumption|].
    exfalso. apply Hhere. right; right; left. lia. }
  destruct Hbl as [?|[?|[Hfloor|[Hrow Hocc]]]]; [lia|lia| |].
  - left. lia.
  - destruct (Z.lt_ge_cases (gy + 1 + Z.of_nat j) TOTAL_ROWS) as [Hin|?];
      [|left; lia].
    right. replace (gy + Z.of_nat j + 1) with (gy + 1 + Z.of_nat j) by lia.
    apply (occupied_board_cell board _ _ Hwf); [lia|lia|assumption].
Qed.

(** X15: a hard drop never leaves the piece in mid-air: in a reachable
    state in which the game is not over, where the loop of [hard_drop]
    leaves the piece, one of its blocks is in the bottom row or right
    above a settled block of the board. *)
Theorem hard_drop_lands_on_support (fuel : nat) (g g1 : state) :
  reachable g -> game_over g = false ->
  hard_drop_loop fuel g = Some (Ok g1) ->
  exists (i j : nat) (cell : Z),
    shape_cell (current_shape g) i j cell /\ cell <> 0 /\
    (y g1 + Z.of_nat j + 1 = TOTAL_ROWS \/
     exists c, board_cell (board g) (x g + Z.of_nat i) (y g1 + Z.of_nat j + 1)
               = Some c /\ c <> 0).
Proof.
  intros Hreach Hover Hloop.
  pose proof (reachable_board_wf g Hreach) as Hwf.
  destruct (reachable_placed g Hreach) as [_ Hhere]. specialize (Hhere Hover).
  destruct (hard_drop_loop_landing fuel g g1 Hloop) as (_ & Hle & Hfree & Hstop).
  apply (blocked_descent_support (board g) (current_shape g) (x g) (y g1) Hwf);
    [|exact Hstop].
  destruct (Z.eq_dec (y g1) (y g)) as [->|Hne]; [exact Hhere|].
  apply Hfree. lia.
Qed.

Lemma hard_drop_lands_on_support_witness :
  exists g g1, play 30 0 0 key_I key_I hollow_game = Some (Ok g) /\
    (reachable g /\ game_over g = false /\
     hard_drop_loop 30 g = Some (Ok g1)) /\
    exists (i j : nat) (cell : Z),
      shape_cell (current_shape g) i j cell /\ cell <> 0 /\
      (y g1 + Z.of_nat j + 1 = TOTAL_ROWS \/
       exists c, board_cell (board g) (x g + Z.of_nat i) (y g1 + Z.of_nat j + 1)
                 = Some c /\ c <> 0).
Proof.
  eexists _, _. split; [vm_compute; reflexivity|].
  match goal with
  | |- (reachable ?g /\ _) /\ _ =>
      assert (Hg : reachable g)
        by (apply (reachable_play 30 0 0 key_I key_I hollow_game);
            vm_compute; reflexivity)
  end.
  assert (Hloop : forall A B : Prop, A -> (A -> B) -> A /\ B) by tauto.
  apply Hloop.
  - split; [exact Hg|]. split; [reflexivity|]. vm_compute. reflexivity.
  - intros (_ & _ & Hdrop).
    exact (hard_drop_lands_on_support 30 _ _ Hg eq_refl Hdrop).
Defined.

End Support.

(** ** Rotation of any rectangular matrix *)

Section Rotation.

Lemma rev_is_reverse {A : Type} (l : list A) : rev l = reverse l.
Proof. unfold reverse. apply rev_alt. Qed.

Lemma lookup_map {A B : Type} (f : A -> B) (l : list A) (i : nat) :
  map f l !! i = option_map f (l !! i).
Proof.
  revert i. induction l as [|a l IH]; intros [|i]; simpl; try reflexivity.
  apply IH.
Qed.

(** The columns of a list of rows of one width. *)
Lemma zip_star_rect (w : nat) (rows : list (list Z)) :
  rows <> [] -> Forall (fun row => length row = w) rows ->
  rect w (length rows) (zip_star rows).
Proof.
  intros Hne Hrows. induction Hrows as [|r rows Hr Hrows IH]; [contradiction|].
  destruct rows as [|r2 rows'].
  - simpl. split.
    + rewrite length_map. assumption.
    + apply Forall_forall. intros col Hcol.
      apply list_elem_of_In, in_map_iff in Hcol as (a & <- & _). reflexivity.
  - destruct IH as [Hlen Hcols]; [discriminate|].
    change (zip_star (r :: r2 :: rows'))
      with (zip_with cons r (zip_star (r2 :: rows'))).
    split.
    + rewrite length_zip_with. lia.
    + apply Forall_lookup. intros i col Hcol.
      apply lookup_zip_with_Some in Hcol as (a & col' & -> & _ & Hcol').
      simpl. f_equal.
      exact (proj1 (Forall_lookup _ _) Hcols i col' Hcol').
Qed.

(** Taking the columns swaps the two indices of a cell. *)
Lemma zip_star_cell (w : nat) (rows : list (list Z)) :
  Forall (fun row => length row = w) rows ->
  forall i j, matrix_cell (zip_star rows) i j = matrix_cell rows j i.
Proof.
  intros Hrows. induction Hrows as [|r rows Hr Hrows IH]; intros i j.
  - reflexivity.
  - destruct rows as [|r2 rows'].
    + unfold matrix_cell. simpl. rewrite lookup_map.
      destruct j as [|j]; simpl.
      * destruct (r !! i); reflexivity.
      * destruct (r !! i); reflexivity.
    + change (zip_star (r :: r2 :: rows'))
        with (zip_with cons r (zip_star (r2 :: rows'))).
      pose proof (zip_star_rect w (r2 :: rows') ltac:(discriminate) Hrows)
        as [Hlen _].
      remember (zip_star (r2 :: rows')) as cols eqn:Hcols.
      remember (r2 :: rows') as rest eqn:Hrest.
      unfold matrix_cell at 1. rewrite lookup_zip_with.
      destruct (r !! i) as [a|] eqn:Ha.
      * destruct (lookup_lt_is_Some_2 cols i) as [col Hcol].
        { apply lookup_lt_Some in Ha. lia. }
        rewrite Hcol. destruct j as [|j].
        -- unfold matrix_cell. simpl. rewrite Ha. reflexivity.
        -- specialize (IH i j). unfold matrix_cell in IH at 1.
           rewrite Hcol in IH. simpl in IH. simpl. rewrite IH.
           unfold matrix_cell. reflexivity.
      * destruct j as [|j].
        -- unfold matrix_cell. simpl. rewrite Ha. reflexivity.
        -- unfold matrix_cell. simpl.
           destruct (rest !! j) as [row|] eqn:Hrow; [|reflexivity].
           simpl. symmetry. apply lookup_ge_None.
           pose proof (proj1 (Forall_lookup _ _) Hrows j row Hrow) as Hlr.
           apply lookup_ge_None in Ha. simpl in Hlr. lia.
Qed.

Lemma rotate_rect (h w : nat) (m : list (list Z)) :
  rect h w m -> (1 <= h)%nat -> rect w h (rotate m).
Proof.
  intros [Hlen Hrows] Hh. unfold rotate.
  rewrite <- Hlen, <- (length_rev m). apply zip_star_rect.
  - intros Hnil. apply (f_equal (@length _)) in Hnil.
    rewrite length_rev in Hnil. simpl in Hnil. lia.
  - apply Forall_rev. assumption.
Qed.

Lemma rotate_cell (h w : nat) (m : list (list Z)) (i j : nat) :
  rect h w m -> (j < h)%nat ->
  matrix_cell (rotate m) i j = matrix_cell m (h - 1 - j) i.
Proof.
  intros [Hlen Hrows] Hj. unfold rotate.
  rewrite (zip_star_cell w) by (apply Forall_rev; assumption).
  unfold matrix_cell. rewrite rev_is_reverse, reverse_lookup by lia.
  rewrite Hlen. replace (h - S j)%nat with (h - 1 - j)%nat by lia.
  reflexivity.
Qed.

(** Matrices of the same dimensions with the same cells are equal. *)
Lemma matrix_ext (h w : nat) (a b : list (list Z)) :
  rect h w a -> rect h w b ->
  (forall i j, (i < h)%nat -> (j < w)%nat ->
     matrix_cell a i j = matrix_cell b i j) ->
  a = b.
Proof.
  intros [Hla Hra] [Hlb Hrb] Hcells.
  apply (list_eq_same_length a b h); [assumption|assumption|].
  intros i ra rb Hi Ha Hb.
  pose proof (proj1 (Forall_lookup _ _) Hra i ra Ha) as Hlra.
  pose proof (proj1 (Forall_lookup _ _) Hrb i rb Hb) as Hlrb.
  apply (list_eq_same_length ra rb w); [assumption|assumption|].
  intros j ca cb Hj Hca Hcb.
  specialize (Hcells i j Hi Hj). unfold matrix_cell in Hcells.
  rewrite Ha, Hb in Hcells. simpl in Hcells. congruence.
Qed.

(** X16: [rotate] on any matrix of [h >= 1] rows of [w] cells gives a
    matrix of [w] rows of [h] cells whose cell [(i, j)] is the cell
    [(h - 1 - j, i)] of the argument, a quarter turn clockwise; for
    [w >= 1] four rotations give back the matrix. *)
Theorem rotate_rectangular (h w : nat) (m : list (list Z)) :
  rect h w m -> (1 <= h)%nat ->
  rect w h (rotate m) /\
  (forall i j, (j < h)%nat ->
     matrix_cell (rotate m) i j = matrix_cell m (h - 1 - j) i) /\
  ((1 <= w)%nat -> rotate (rotate (rotate (rotate m))) = m).
Proof.
  intros Hm Hh. split; [exact (rotate_rect h w m Hm Hh)|].
  split; [intros i j Hj; exact (rotate_cell h w m i j Hm Hj)|].
  intros Hw.
  pose proof (rotate_rect h w m Hm Hh) as H1.
  pose proof (rotate_rect w h _ H1 Hw) as H2.
  pose proof (rotate_rect h w _ H2 Hh) as H3.
  pose proof (rotate_rect w h _ H3 Hw) as H4.
  apply (matrix_ext h w); [assumption|assumption|].
  intros i j Hi Hj.
  rewrite (rotate_cell w h _ i j H3 Hj).
  rewrite (rotate_cell h w _ (w - 1 - j) i H2 Hi).
  rewrite (rotate_cell w h _ (h - 1 - i) (w - 1 - j) H1) by lia.
  rewrite (rotate_cell h w m (w - 1 - (w - 1 - j)) (h - 1 - i) Hm) by lia.
  replace (h - 1 - (h - 1 - i))%nat with i by lia.
  replace (w - 1 - (w - 1 - j))%nat with j by lia.
  reflexivity.
Qed.

Lemma rotate_rectangular_witness :
  let m := [[1; 2; 3]; [4; 5; 6]] in
  (rect 2 3 m /\ (1 <= 2)%nat) /\
  rect 3 2 (rotate m) /\
  (forall i j, (j < 2)%nat ->
     matrix_cell (rotate m) i j = matrix_cell m (2 - 1 - j) i) /\
  ((1 <= 3)%nat -> rotate (rotate (rotate (rotate m))) = m).
Proof.
  intros m.
  assert (Hm : rect 2 3 m).
  { split; [reflexivity|]. repeat constructor. }
  split; [split; [exact Hm|lia]|].
  apply (rotate_rectangular 2 3 m Hm). lia.
Defined.

End Rotation.

(** ** Which piece is active *)

Section PieceIdentity.
Import Tetris.

Lemma spawn_new_types (r : piece) (g g' : state) :
  spawn_new r g = Ok g' ->
  current_type g' = next_type g /\ next_type g' = r /\
  current_shape g' = SHAPES (next_type g).
Proof.
  intros H. pose proof (spawn_new_frame r g g' H) as (_ & _ & _ & _ & _ & Hs).
  split; [|split; [|exact Hs]];
    destruct (spawn_new_inv r g g' H) as [(c & sy & ->)| ->];
    try reflexivity;
    destruct (spawn_failed_piece (spawn_entry r g)) as (_ & _ & Hc & Hn);
    [rewrite Hc|rewrite Hn]; reflexivity.
Qed.

Lemma lock_piece_types (r : piece) (g g' : state) :
  lock_piece r g = Ok g' ->
  current_type g' = next_type g /\ next_type g' = r /\
  current_shape g' = SHAPES (next_type g).
Proof.
  intros H. destruct (lock_piece_inv r g g' H) as (b & _ & Hnew).
  apply spawn_new_types in Hnew.
  rewrite (proj1 (proj2 (proj2 (lock_scoring_frame _ _)))) in Hnew.
  exact Hnew.
Qed.

Lemma rotate_orientations (k : piece) (shape : list (list Z)) :
  In shape (orientations k) -> In (rotate shape) (orientations k).
Proof.
  unfold orientations. simpl.
  intros [<-|[<-|[<-|[<-|[]]]]]; auto.
  left. destruct k; reflexivity.
Qed.

(** X17: the piece shown as next is the piece that spawns: an event
    either leaves the active and the next type alone, or makes the next
    type the active one, in its catalog orientation, and the draw the next
    type.  In every reachable state the active shape is one of the four
    orientations of the active type. *)
Theorem next_piece_spawns (fuel : nat) (ev : event) (r : piece) (g g' : state) :
  handle_event fuel ev r g = Some (Ok g') ->
  ((current_type g' = current_type g /\ next_type g' = next_type g)
   \/ (current_type g' = next_type g /\ next_type g' = r /\
       current_shape g' = SHAPES (next_type g))) /\
  (reachable g -> In (current_shape g') (orientations (current_type g'))).
Proof.
  intros Hev. split.
  - apply handle_event_step in Hev.
    destruct Hev as [| | |g' Hnew| | | |y1 g' _ _ _ _ Hlock];
      try (left; split; reflexivity).
    + right. exact (spawn_new_types r (reset_fields g) g' Hnew).
    + right. exact (lock_piece_types r (set_y g y1) g' Hlock).
  - intros Hreach.
    assert (Hall : forall h, reachable h ->
                     In (current_shape h) (orientations (current_type h))).
    { apply reachable_by_steps.
      - intros hl hn r1 r2 h Hinit.
        apply spawn_new_types in Hinit as (-> & _ & ->). left. reflexivity.
      - intros r0 h h' _ IH Hstep.
        destruct Hstep as [| | |h' Hnew| | | |y1 h' _ _ _ _ Hlock];
          try exact IH.
        + apply spawn_new_types in Hnew as (-> & _ & ->). left. reflexivity.
        + exact (rotate_orientations _ _ IH).
        + apply lock_piece_types in Hlock as (-> & _ & ->). left. reflexivity. }
    apply Hall. exact (reachable_step fuel ev r g g' Hreach Hev).
Qed.

Lemma next_piece_spawns_witness :
  exists g g', play 30 0 0 key_I key_I hollow_game = Some (Ok g) /\
    (handle_event 30 K_SPACE key_S g = Some (Ok g') /\ reachable g) /\
    ((current_type g' = current_type g /\ next_type g' = next_type g)
     \/ (current_type g' = next_type g /\ next_type g' = key_S /\
         current_shape g' = SHAPES (next_type g))) /\
    (reachable g -> In (current_shape g') (orientations (current_type g'))).
Proof.
  eexists _, _. split; [vm_compute; reflexivity|].
  assert (Hpair : forall A B : Prop, A -> (A -> B) -> A /\ B) by tauto.
  apply Hpair.
  - split; [vm_compute; reflexivity|].
    apply (reachable_play 30 0 0 key_I key_I hollow_game).
    vm_compute. reflexivity.
  - intros [Hev _]. exact (next_piece_spawns 30 K_SPACE key_S _ _ Hev).
Defined.

End PieceIdentity.

(** ** How many rows a lock can clear *)

Section FourLines.
Import Tetris.

(** A filter keeps at most [k] elements when everything outside a window
    of [k] positions fails the test. *)
Lemma filter_window {A : Type} (P : A -> Prop) `{forall a, Decision (P a)}
  (l : list A) (a k : nat) :
  (forall i x, l !! i = Some x -> (i < a)%nat \/ (a + k <= i)%nat -> ~ P x) ->
  (length (filter P l) <= k)%nat.
Proof.
  intros Hout.
  rewrite <- (take_drop a l), filter_app.
  rewrite <- (take_drop k (drop a l)), filter_app.
  rewrite (filter_nothing P (take a l)).
  - rewrite (filter_nothing P (drop k (drop a l))).
    + rewrite app_nil_r. simpl.
      pose proof (length_filter P (take k (drop a l))) as Hle.
      pose proof (length_take (drop a l) k) as Htk.
      unfold lt in *. lia.
    + apply Forall_lookup. intros i x Hx.
      rewrite !lookup_drop in Hx. apply (Hout _ x Hx). right. lia.
  - apply Forall_lookup. intros i x Hx.
    apply lookup_take_Some in Hx as [Hx Hi]. apply (Hout i x Hx). left. exact Hi.
Qed.

Lemma shape_block_outside (shape : list (list Z)) (i j : Z) :
  j < 0 \/ len shape <= j -> shape_block shape i j = None.
Proof.
  intros Hj. unfold shape_block, board_cell.
  destruct (Z.ltb_spec i 0); [reflexivity|].
  destruct (Z.ltb_spec j 0); [reflexivity|]. simpl.
  rewrite (proj2 (lookup_ge_None shape (Z.to_nat j))); [reflexivity|].
  unfold len in Hj. lia.
Qed.

Lemma row_of_board_cell (board : list (list Z)) (row : list Z) (n m : nat) (c : Z) :
  board !! n = Some row ->
  board_cell board (Z.of_nat m) (Z.of_nat n) = Some c -> row !! m = Some c.
Proof.
  intros Hrow. unfold board_cell.
  destruct (Z.ltb_spec (Z.of_nat m) 0); [lia|].
  destruct (Z.ltb_spec (Z.of_nat n) 0); [lia|]. simpl.
  rewrite !Nat2Z.id, Hrow. simpl. intros Hcell. exact Hcell.
Qed.

Lemma board_cell_of_row (board : list (list Z)) (row : list Z) (n m : nat) (c : Z) :
  board !! n = Some row -> row !! m = Some c ->
  board_cell board (Z.of_nat m) (Z.of_nat n) = Some c.
Proof.
  intros Hrow Hc. unfold board_cell.
  destruct (Z.ltb_spec (Z.of_nat m) 0); [lia|].
  destruct (Z.ltb_spec (Z.of_nat n) 0); [lia|]. simpl.
  rewrite !Nat2Z.id, Hrow. simpl. exact Hc.
Qed.

(** A merge into a board without a full row makes no more rows full than
    the shape has rows. *)
Lemma merge_full_rows (shape board : list (list Z)) (off_x off_y : Z) :
  board_wf board -> Forall (fun row : list Z => 0 ∈ row) board ->
  exists b, merge shape board (off_x, off_y) = Ok b /\ board_wf b /\
    snd (clear_lines b) = len (filter (fun row : list Z => 0 ∉ row) b) /\
    0 <= snd (clear_lines b) <= len shape.
Proof.
  intros Hwf Hrows.
  destruct (merge_rows_spec off_x off_y shape board 0 Hwf)
    as (b & Hb & Hwfb & Hcells).
  exists b. split; [exact Hb|]. split; [exact Hwfb|].
  rewrite (clear_lines_rows b (proj1 Hwfb)). cbn [snd].
  split; [reflexivity|]. split; [apply Nat2Z.is_nonneg|].
  unfold len. apply Nat2Z.inj_le.
  apply (filter_window (fun row : list Z => 0 ∉ row) b (Z.to_nat off_y)).
  intros n row' Hrow' Hout Hfull. apply Hfull.
  pose proof (lookup_lt_Some _ _ _ Hrow') as Hn.
  destruct Hwf as [Hlen Hall]. destruct Hwfb as [Hlenb Hallb].
  unfold len in Hlen, Hlenb.
  destruct (lookup_lt_is_Some_2 board n) as [row Hrow]; [lia|].
  pose proof (proj1 (Forall_lookup _ _) Hrows n row Hrow) as Hzero.
  apply list_elem_of_lookup in Hzero as (m & Hm).
  pose proof (lookup_lt_Some _ _ _ Hm) as Hmlt.
  pose proof (proj1 (Forall_lookup _ _) Hall n row Hrow) as Hlrow.
  unfold len in Hlrow.
  apply list_elem_of_lookup. exists m.
  apply (row_of_board_cell b row' n m 0 Hrow').
  rewrite Hcells by lia.
  rewrite shape_block_outside by (unfold len; lia).
  exact (board_cell_of_row board row n m 0 Hrow Hm).
Qed.

Lemma catalog_shape_rows (shape : list (list Z)) :
  catalog_shape shape -> len shape <= 4.
Proof.
  intros [k Hin]. unfold orientations in Hin. simpl in Hin.
  destruct Hin as [<-|[<-|[<-|[<-|[]]]]]; destruct k; vm_compute;
    intros H; discriminate H.
Qed.

(** X18: no event clears more than four lines.  After an event in a
    reachable state, either the game was reset (empty board, score 0,
    lines 0, level 1), or the line counter grew by 0 to 4 and the score by
    100 times that growth times the level before the event. *)
Theorem at_most_four_lines (fuel : nat) (ev : event) (r : piece) (g g' : state) :
  reachable g -> handle_event fuel ev r g = Some (Ok g') ->
  (board g' = new_board /\ score g' = 0 /\ lines g' = 0 /\ level g' = 1)
  \/ (lines g <= lines g' <= lines g + 4 /\
      score g' = score g + 100 * (lines g' - lines g) * level g).
Proof.
  intros Hreach Hev. apply handle_event_step in Hev.
  pose proof (reachable_board_wf g Hreach) as Hwf.
  destruct Hev as [| | |g' Hnew| | | |y1 g' _ _ _ _ Hlock];
    try (right; split; [change (lines g <= lines g <= lines g + 4); lia|];
         change (score g = score g + 100 * (lines g - lines g) * level g); lia).
  - left. apply spawn_new_frame in Hnew as (-> & -> & -> & -> & _).
    repeat split; reflexivity.
  - right.
    destruct (merge_full_rows (current_shape g) (board g) (x g) y1 Hwf
                (proj2 (reachable_board_ok g Hreach)))
      as (b & Hb & Hwfb & _ & Hc0 & Hc4).
    pose proof (catalog_shape_rows _ (reachable_catalog_shape g Hreach)) as Hrows.
    destruct (lock_piece_inv r (set_y g y1) g' Hlock) as (b' & Hb' & Hnew).
    change (merge (current_shape g) (board g) (x g, y1) = Ok b') in Hb'.
    rewrite Hb in Hb'. injection Hb' as <-.
    destruct (lock_piece_counters r (set_y g y1) g' b Hnew) as [Hpos Hzero].
    change (score (set_y g y1)) with (score g) in *.
    change (lines (set_y g y1)) with (lines g) in *.
    change (level (set_y g y1)) with (level g) in *.
    destruct (Z.eq_dec (snd (clear_lines b)) 0) as [Hz|Hnz].
    + destruct (Hzero Hz) as (-> & -> & _). split; [lia|]. lia.
    + destruct (Hpos Hnz) as (-> & -> & _). split; [lia|].
      replace (lines g + snd (clear_lines b) - lines g)
        with (snd (clear_lines b)) by lia.
      reflexivity.
Qed.

Lemma at_most_four_lines_witness :
  exists g g', play 30 0 0 key_I key_I one_line_setup = Some (Ok g) /\
    (reachable g /\ handle_event 30 K_SPACE key_J g = Some (Ok g')) /\
    lines g' = 1 /\
    ((board g' = new_board /\ score g' = 0 /\ lines g' = 0 /\ level g' = 1)
     \/ (lines g <= lines g' <= lines g + 4 /\
         score g' = score g + 100 * (lines g' - lines g) * level g)).
Proof.
  eexists _, _. split; [vm_compute; reflexivity|].
  assert (Hpair : forall A B : Prop, A -> (A -> B) -> A /\ B) by tauto.
  apply Hpair.
  - split; [|vm_compute; reflexivity].
    apply (reachable_play 30 0 0 key_I key_I one_line_setup).
    vm_compute. reflexivity.
  - intros [Hg Hev]. split; [reflexivity|].
    exact (at_most_four_lines 30 K_SPACE key_J _ _ Hg Hev).
Defined.

End FourLines.

(** ** Ticks and moves *)

Section TicksAndMoves.
Import Tetris.



Lemma set_x_back (g : state) (v : Z) : set_x (set_x g v) (x g) = g.
Proof. destruct g. reflexivity. Qed.

(** X20: a move is undone by the opposite move: in a reachable state in
    which the game is not over, if [move(dx)] shifted the piece, then
    [move(-dx)] right after it is accepted and gives back the state. *)
Theorem move_round_trip (dx : Z) (g g1 : state) :
  reachable g -> game_over g = false ->
  move dx g = Ok g1 -> x g1 <> x g ->
  move (- dx) g1 = Ok g.
Proof.
  intros Hreach Hover Hmove Hmoved.
  destruct (reachable_placed g Hreach) as [_ Hhere]. specialize (Hhere Hover).
  unfold move in Hmove. apply bind_Ok_inv in Hmove as (c & Hc & Hmove).
  destruct c; simpl in Hmove; injection Hmove as <-; [contradiction|].
  unfold move.
  change (board (set_x g (x g + dx))) with (board g).
  change (current_shape (set_x g (x g + dx))) with (current_shape g).
  change (y (set_x g (x g + dx))) with (y g).
  change (x (set_x g (x g + dx))) with (x g + dx).
  replace (x g + dx + - dx) with (x g) by lia.
  rewrite Hhere, bind_Ok. simpl. rewrite set_x_back. reflexivity.
Qed.

Lemma move_round_trip_witness :
  exists g g1, play 30 0 0 key_I key_I [] = Some (Ok g) /\
    (reachable g /\ game_over g = false /\
     move (-1) g = Ok g1 /\ x g1 <> x g) /\
    move (- -1) g1 = Ok g.
Proof.
  eexists _, _. split; [vm_compute; reflexivity|].
  assert (Hpair : forall A B : Prop, A -> (A -> B) -> A /\ B) by tauto.
  apply Hpair.
  - split; [apply (reachable_play 30 0 0 key_I key_I []); vm_compute; reflexivity|].
    split; [reflexivity|]. split; [vm_compute; reflexivity|].
    vm_compute. intros H. discriminate H.
  - intros (Hg & Hover & Hmove & Hx).
    exact (move_round_trip (-1) _ _ Hg Hover Hmove Hx).
Defined.

End TicksAndMoves.
